(** * Snake game: the update loop of [App] and its collision/state model

    A shallow embedding of the game component of the repository (the React
    component [App]: [getRandomPosition], [drawSnake], [drawFood],
    [moveSnake], [updateGame], [handleKeyPress], [startGame] and the
    effects that mount the canvas and keep the interval in step with
    [isPlaying]), followed by the properties of the specification.

    Conventions of the embedding:
    - grid coordinates and the score are JavaScript numbers holding small
      integers; they are modelled as [Z];
    - the refs ([snakeRef], [foodRef], [directionRef], [gameLoopRef]) and the
      React state ([score], [gameOver], [isPlaying]) are the fields of one
      record, threaded explicitly through every function;
    - [Math.random()] is an oracle: each call site receives its result as an
      argument, a rational of [0, 1); the product with the grid width is taken
      exactly (the rounding of the double product is not modelled);
    - the 2D context is a log of the drawing calls made on it, together with
      its current [fillStyle]. *)

(** The repository's second page, the port-forward manager, keeps a list of
    mappings in a JSON blob behind a small HTTP handler.  Its handler
    ([server] of [forwarder.js], with [readConfig], [writeConfig] and
    [initConfig]) is embedded in [Forwarder] and its properties are in
    [ForwarderFacts], after those of the game. *)

From Stdlib Require Import ZArith List Bool Lia QArith Qround Ascii String.
Import ListNotations.

Open Scope Z_scope.

Module Forwarder.

(** ** Data *)

(** A stored [PortMapping].  [id] is the number [server] assigned; the other
    properties are the ones the request body carried ([None]: absent). *)
Record PortMapping : Set := mkPortMapping {
  id : Z;
  port : option Z;
  subdomain : option string;
  cloudIdeUrl : option string
}.

(** The JSON object of a request body: any subset of the properties of
    [PortMapping], each with its declared type. *)
Record Body : Set := mkBody {
  body_id : option Z;
  body_port : option Z;
  body_subdomain : option string;
  body_cloudIdeUrl : option string
}.

(** What the blob holds under [CONFIG_KEY]: an array of mappings or some
    other JSON value; [None] when the key is missing or the read fails. *)
Inductive Json : Set :=
| JArray (config : list PortMapping)
| JOther.

Definition Blob : Set := option Json.

Record Request : Set := mkRequest {
  method : string;
  pathname : string;
  json : Body
}.

Inductive Content : Set :=
| NoContent
| JsonConfig (config : list PortMapping)
| HtmlPage.

Record Response : Set := mkResponse { status : Z; content : Content }.

(** ** Helpers of the handler *)

(** [readConfig]: the stored array, or [[]] when the value is not an array
    or the read throws. *)
Definition readConfig (blob : Blob) : list PortMapping :=
  match blob with
  | Some (JArray data) => data
  | Some JOther => []
  | None => []
  end.

(** [writeConfig]. *)
Definition writeConfig (config : list PortMapping) (blob : Blob) : Blob :=
  Some (JArray config).

(** [initConfig]. *)
Definition initConfig (blob : Blob) : Blob :=
  let existingConfig := readConfig blob in
  if (List.length existingConfig =? 0)%nat then writeConfig [] blob else blob.

(** [s.split('/')]. *)
Fixpoint split_slash (s : string) : list string :=
  match s with
  | EmptyString => [EmptyString]
  | String c rest =>
      if Ascii.eqb c "/"%char then EmptyString :: split_slash rest
      else match split_slash rest with
           | [] => [String c EmptyString]
           | piece :: pieces => String c piece :: pieces
           end
  end.

(** [.pop()] of the array [split] returned. *)
Definition pop (pieces : list string) : string := last pieces EmptyString.

(** [Math.max(first, ...others)]. *)
Definition Math_max (first : Z) (others : list Z) : Z :=
  fold_left Z.max others first.

(** [m.id === id], where [id] is the result of [parseInt] ([None]: NaN). *)
Definition id_is (target : option Z) (m : PortMapping) : bool :=
  match target with
  | Some v => id m =? v
  | None => false
  end.

(** [config.findIndex(p)]; [None] stands for -1. *)
Fixpoint findIndex (p : PortMapping -> bool) (config : list PortMapping) : option nat :=
  match config with
  | [] => None
  | m :: rest =>
      if p m then Some 0%nat
      else match findIndex p rest with
           | Some index => Some (S index)
           | None => None
           end
  end.

(** [{ ...old, ...updatedMapping }]. *)
Definition spread (old : PortMapping) (updatedMapping : Body) : PortMapping :=
  {| id := match body_id updatedMapping with Some v => v | None => id old end;
     port := match body_port updatedMapping with Some v => Some v | None => port old end;
     subdomain :=
       match body_subdomain updatedMapping with Some v => Some v | None => subdomain old end;
     cloudIdeUrl :=
       match body_cloudIdeUrl updatedMapping with
       | Some v => Some v
       | None => cloudIdeUrl old
       end |}.

(** [config[index] = { ...config[index], ...updatedMapping }], for an index
    [findIndex] returned. *)
Fixpoint assign_spread (index : nat) (updatedMapping : Body) (config : list PortMapping)
  : list PortMapping :=
  match config, index with
  | [], _ => []
  | m :: rest, O => spread m updatedMapping :: rest
  | m :: rest, S index' => m :: assign_spread index' updatedMapping rest
  end.

(** [newMapping.id = v] on the parsed body. *)
Definition with_id (v : Z) (newMapping : Body) : PortMapping :=
  {| id := v;
     port := body_port newMapping;
     subdomain := body_subdomain newMapping;
     cloudIdeUrl := body_cloudIdeUrl newMapping |}.

(** The id [server] gives to a posted mapping. *)
Definition next_id (config : list PortMapping) : Z :=
  match map id config with
  | [] => 1
  | first :: others => Math_max first others + 1
  end.

(** ** The handler *)

(** [server].  [parseInt] is the builtin, applied to the last piece of the
    path; the blob is threaded through. *)
Definition server (parseInt : string -> option Z) (request : Request) (blob : Blob)
  : Response * Blob :=
  let blob := initConfig blob in
  if String.eqb (pathname request) "/mappings" && String.eqb (method request) "GET" then
    let config := readConfig blob in
    (mkResponse 200 (JsonConfig config), blob)
  else if String.eqb (pathname request) "/mappings"
          && String.eqb (method request) "POST" then
    let config := readConfig blob in
    let newMapping := with_id (next_id config) (json request) in
    let config := config ++ [newMapping] in
    (mkResponse 201 NoContent, writeConfig config blob)
  else if String.prefix "/mappings/" (pathname request)
          && String.eqb (method request) "PUT" then
    let target := parseInt (pop (split_slash (pathname request))) in
    let updatedMapping := json request in
    let config := readConfig blob in
    match findIndex (id_is target) config with
    | Some index =>
        (mkResponse 200 NoContent,
         writeConfig (assign_spread index updatedMapping config) blob)
    | None => (mkResponse 404 NoContent, blob)
    end
  else if String.prefix "/mappings/" (pathname request)
          && String.eqb (method request) "DELETE" then
    let target := parseInt (pop (split_slash (pathname request))) in
    let config := readConfig blob in
    let newConfig := filter (fun m => negb (id_is target m)) config in
    (mkResponse 200 NoContent, writeConfig newConfig blob)
  else (mkResponse 200 HtmlPage, blob).

(** Requests served one after the other, the responses in order. *)
Fixpoint serve (parseInt : string -> option Z) (requests : list Request) (blob : Blob)
  : list Response * Blob :=
  match requests with
  | [] => ([], blob)
  | request :: rest =>
      let (response, blob1) := server parseInt request blob in
      let (responses, blob2) := serve parseInt rest blob1 in
      (response :: responses, blob2)
  end.

(** ** Vocabulary of the properties *)

Fixpoint has_slash (s : string) : bool :=
  match s with
  | EmptyString => false
  | String c rest => Ascii.eqb c "/"%char || has_slash rest
  end.

Definition ids (config : list PortMapping) : list Z := map id config.

(** The requests the page sends. *)
Definition GET_mappings : Request :=
  mkRequest "GET" "/mappings" (mkBody None None None None).
Definition POST_mapping (body : Body) : Request :=
  mkRequest "POST" "/mappings" body.

(** A [PUT] whose body leaves the id alone: it carries no [id], or the id it
    addresses. *)
Definition keeps_id (parseInt : string -> option Z) (request : Request) : Prop :=
  String.prefix "/mappings/" (pathname request) && String.eqb (method request) "PUT" = true ->
  body_id (json request) = None \/
  body_id (json request) = parseInt (pop (split_slash (pathname request))).

(** A stored list used in the examples: ids 1, 2 and 4. *)
Definition sample_config : list PortMapping :=
  [mkPortMapping 1 (Some 3000) (Some "app"%string) (Some "ide.example"%string);
   mkPortMapping 2 (Some 8080) (Some "api"%string) (Some "ide.example"%string);
   mkPortMapping 4 (Some 5432) (Some "db"%string) (Some "ide.example"%string)].

Definition sample_blob : Blob := Some (JArray sample_config).

(** Requests used in the examples, served from a missing blob: two posts, an
    edit of mapping 2, the deletion of mapping 1, one more post. *)
Definition sample_requests : list Request :=
  [POST_mapping (mkBody None (Some 1) None None);
   POST_mapping (mkBody None (Some 7) None None);
   mkRequest "PUT" "/mappings/2" (mkBody (Some 2) (Some 9000) None None);
   mkRequest "DELETE" "/mappings/1" (mkBody None None None None);
   POST_mapping (mkBody (Some 2) (Some 2) None None)].

(** A reader of strings of decimal digits, on which it agrees with
    [parseInt]; the page only sends such ids.  It serves to run examples: the
    properties below hold for every [parseInt]. *)
Definition digit_value (c : Ascii.ascii) : option Z :=
  let n := Z.of_nat (Ascii.nat_of_ascii c) in
  if (48 <=? n) && (n <=? 57) then Some (n - 48) else None.

Fixpoint read_digits (acc : Z) (s : string) : option Z :=
  match s with
  | EmptyString => Some acc
  | String c rest =>
      match digit_value c with
      | Some d => read_digits (10 * acc + d) rest
      | None => None
      end
  end.

Definition decimal (s : string) : option Z :=
  match s with
  | EmptyString => None
  | _ => read_digits 0 s
  end.

End Forwarder.

Module Snake.

(** ** Constants *)

Definition CANVAS_SIZE : Z := 400.
Definition GRID_SIZE : Z := 20.
Definition SNAKE_SPEED : Z := 150.

(** [CANVAS_SIZE / GRID_SIZE], the number of cells per side.  The source
    divides two numbers; the division is exact ([CELLS_exact] below). *)
Definition CELLS : Z := CANVAS_SIZE / GRID_SIZE.

(** ** Data *)

(** [{ x, y }] objects: snake segments, the food, and directions. *)
Record Cell : Set := mkCell { x : Z; y : Z }.

Record State : Set := mkState {
  snakeRef : list Cell;      (* head first *)
  foodRef : Cell;
  directionRef : Cell;
  score : Z;
  gameOver : bool;
  isPlaying : bool;
  gameLoopRef : bool         (* true while the interval it holds is live *)
}.

(** The three phases of the specification, read off the two flags. *)
Inductive GameState : Set := Idle | Running | Over.

Definition phase (s : State) : GameState :=
  if isPlaying s then Running else if gameOver s then Over else Idle.

(** Field updates ([ref.current = v], [setX(v)]). *)
Definition set_snake (v : list Cell) (s : State) : State :=
  mkState v (foodRef s) (directionRef s) (score s) (gameOver s) (isPlaying s)
          (gameLoopRef s).
Definition set_food (v : Cell) (s : State) : State :=
  mkState (snakeRef s) v (directionRef s) (score s) (gameOver s) (isPlaying s)
          (gameLoopRef s).
Definition set_direction (v : Cell) (s : State) : State :=
  mkState (snakeRef s) (foodRef s) v (score s) (gameOver s) (isPlaying s)
          (gameLoopRef s).
Definition setScore (f : Z -> Z) (s : State) : State :=
  mkState (snakeRef s) (foodRef s) (directionRef s) (f (score s)) (gameOver s)
          (isPlaying s) (gameLoopRef s).
Definition setGameOver (v : bool) (s : State) : State :=
  mkState (snakeRef s) (foodRef s) (directionRef s) (score s) v (isPlaying s)
          (gameLoopRef s).
Definition setIsPlaying (v : bool) (s : State) : State :=
  mkState (snakeRef s) (foodRef s) (directionRef s) (score s) (gameOver s) v
          (gameLoopRef s).
Definition clearInterval (s : State) : State :=
  mkState (snakeRef s) (foodRef s) (directionRef s) (score s) (gameOver s)
          (isPlaying s) false.
Definition setInterval (s : State) : State :=
  mkState (snakeRef s) (foodRef s) (directionRef s) (score s) (gameOver s)
          (isPlaying s) true.

(** ** The engine *)

(** [getRandomPosition]; [rx] and [ry] are the results of its two
    [Math.random()] calls. *)
Definition getRandomPosition (rx ry : Q) : Cell :=
  {| x := Qfloor (rx * inject_Z CELLS);
     y := Qfloor (ry * inject_Z CELLS) |}.

(** [segment.x === head.x && segment.y === head.y] *)
Definition same_cell (a b : Cell) : bool :=
  (x a =? x b) && (y a =? y b).

(** The head computed at the top of [moveSnake]: a copy of the first segment
    moved by [directionRef]. *)
Definition moved_head (first : Cell) (s : State) : Cell :=
  {| x := x first + x (directionRef s); y := y first + y (directionRef s) |}.

(** The guard of the early return of [moveSnake]. *)
Definition collides (head : Cell) (s : State) : bool :=
  (x head <? 0) || (y head <? 0) || (x head >=? CELLS) || (y head >=? CELLS)
  || existsb (fun segment => same_cell segment head) (snakeRef s).

(** [moveSnake].  [rx], [ry] feed [getRandomPosition] when the food is eaten.
    On an empty array the source builds a head of two NaN, which passes the
    guard, is unshifted, differs from the food and is popped again: the state
    comes back unchanged. *)
Definition moveSnake (rx ry : Q) (s : State) : State :=
  match snakeRef s with
  | [] => s
  | first :: _ =>
      let head := moved_head first s in
      if collides head s then
        clearInterval (setIsPlaying false (setGameOver true s))
      else
        let s1 := set_snake (head :: snakeRef s) s in
        if same_cell head (foodRef s1) then
          set_food (getRandomPosition rx ry) (setScore (fun prevScore => prevScore + 1) s1)
        else
          set_snake (removelast (snakeRef s1)) s1
  end.

(** [handleKeyPress], on the [key] of the event. *)
Definition handleKeyPress (key : string) (s : State) : State :=
  if negb (isPlaying s) then s
  else if String.eqb key "ArrowUp" then
    if y (directionRef s) =? 0 then set_direction (mkCell 0 (-1)) s else s
  else if String.eqb key "ArrowDown" then
    if y (directionRef s) =? 0 then set_direction (mkCell 0 1) s else s
  else if String.eqb key "ArrowLeft" then
    if x (directionRef s) =? 0 then set_direction (mkCell (-1) 0) s else s
  else if String.eqb key "ArrowRight" then
    if x (directionRef s) =? 0 then set_direction (mkCell 1 0) s else s
  else s.

(** [startGame]. *)
Definition startGame (rx ry : Q) (s : State) : State :=
  setIsPlaying true
    (setGameOver false
       (setScore (fun _ => 0)
          (set_food (getRandomPosition rx ry)
             (set_direction (mkCell 1 0)
                (set_snake [mkCell 10 10] s))))).

(** The effect that depends on [isPlaying]: it runs after a render in which
    [isPlaying] changed, and leaves the interval live exactly when the game
    is playing. *)
Definition isPlaying_effect (s : State) : State :=
  if isPlaying s then setInterval (clearInterval s) else clearInterval s.

(** The state of the refs and of the React state at the first render. *)
Definition initial : State :=
  mkState [mkCell 10 10] (mkCell 15 15) (mkCell 1 0) 0 false false false.

(** ** The render sink *)

Inductive CanvasOp : Set :=
| ClearRect (px py w h : Z)
| FillRect (style : string) (px py w h : Z).

(** A 2D context: its current [fillStyle] and the calls made so far, oldest
    first. *)
Record Ctx : Set := mkCtx { fillStyle : string; ops : list CanvasOp }.

Definition set_fillStyle (c : string) (ctx : Ctx) : Ctx :=
  mkCtx c (ops ctx).
Definition clearRect (px py w h : Z) (ctx : Ctx) : Ctx :=
  mkCtx (fillStyle ctx) (ops ctx ++ [ClearRect px py w h]).
Definition fillRect (px py w h : Z) (ctx : Ctx) : Ctx :=
  mkCtx (fillStyle ctx) (ops ctx ++ [FillRect (fillStyle ctx) px py w h]).

(** [drawSnake]: [forEach] over the segments, head first. *)
Definition drawSnake (s : State) (ctx : Ctx) : Ctx :=
  fold_left
    (fun c segment =>
       fillRect (x segment * GRID_SIZE) (y segment * GRID_SIZE) GRID_SIZE GRID_SIZE c)
    (snakeRef s) (set_fillStyle "green" ctx).

(** [drawFood]. *)
Definition drawFood (s : State) (ctx : Ctx) : Ctx :=
  fillRect (x (foodRef s) * GRID_SIZE) (y (foodRef s) * GRID_SIZE) GRID_SIZE GRID_SIZE
    (set_fillStyle "red" ctx).

(** The engine together with the canvas it draws on. *)
Definition World : Set := (State * Ctx)%type.

(** [updateGame], the interval callback: clear, draw, then move. *)
Definition updateGame (rx ry : Q) (w : World) : World :=
  let ctx := snd w in
  let ctx := clearRect 0 0 CANVAS_SIZE CANVAS_SIZE ctx in
  let ctx := drawSnake (fst w) ctx in
  let ctx := drawFood (fst w) ctx in
  (moveSnake rx ry (fst w), ctx).

(** The mount effect: the snake and the food are drawn on the fresh canvas. *)
Definition mount_effect (w : World) : World :=
  (fst w, drawFood (fst w) (drawSnake (fst w) (snd w))).

(** A fresh canvas context: default fill style, nothing drawn. *)
Definition fresh_ctx : Ctx := mkCtx "#000000" [].

Definition mounted : World := mount_effect (initial, fresh_ctx).

(** ** Events of the page *)

(** What can happen after mount: a click on the start button (with the two
    random numbers its [getRandomPosition] will draw), a key press, and the
    interval firing (with the two random numbers a food resample would
    draw). *)
Inductive Event : Set :=
| StartClick (rx ry : Q)
| KeyDown (key : string)
| IntervalFire (rx ry : Q).

(** The contract of [Math.random()]. *)
Definition unit_interval (r : Q) : Prop := (0 <= r /\ r < 1)%Q.

Definition valid_event (ev : Event) : Prop :=
  match ev with
  | StartClick rx ry | IntervalFire rx ry => unit_interval rx /\ unit_interval ry
  | KeyDown _ => True
  end.

(** After a handler changed [isPlaying], the component renders again and the
    effect that depends on it runs. *)
Definition rerender (before after : State) : State :=
  if Bool.eqb (isPlaying before) (isPlaying after) then after
  else isPlaying_effect after.

(** One event.  The start button is only rendered while [isPlaying] is
    false, and the interval callback only runs while the interval is live. *)
Definition step (ev : Event) (w : World) : World :=
  match ev with
  | StartClick rx ry =>
      if isPlaying (fst w) then w
      else (rerender (fst w) (startGame rx ry (fst w)), snd w)
  | KeyDown key => (handleKeyPress key (fst w), snd w)
  | IntervalFire rx ry =>
      if gameLoopRef (fst w) then
        let w' := updateGame rx ry w in (rerender (fst w) (fst w'), snd w')
      else w
  end.

Definition run (evs : list Event) (w : World) : World :=
  fold_left (fun acc ev => step ev acc) evs w.

(** The worlds the page can be in. *)
Inductive reachable : World -> Prop :=
| reach_mounted : reachable mounted
| reach_step ev w : reachable w -> valid_event ev -> reachable (step ev w).

(** ** Vocabulary of the properties *)

Definition in_grid (c : Cell) : Prop :=
  0 <= x c < CELLS /\ 0 <= y c < CELLS.

Definition opposite (d : Cell) : Cell := mkCell (- x d) (- y d).

Definition unit_vector (d : Cell) : Prop :=
  d = mkCell 1 0 \/ d = mkCell (-1) 0 \/ d = mkCell 0 1 \/ d = mkCell 0 (-1).

(** The direction each arrow key asks for; other keys ask for nothing. *)
Definition keyDirection (key : string) : option Cell :=
  if String.eqb key "ArrowUp" then Some (mkCell 0 (-1))
  else if String.eqb key "ArrowDown" then Some (mkCell 0 1)
  else if String.eqb key "ArrowLeft" then Some (mkCell (-1) 0)
  else if String.eqb key "ArrowRight" then Some (mkCell 1 0)
  else None.

(** A frame: what rendering the state [s] sends to the sink, that is a
    clear of the whole canvas, one green block per segment, one red block
    for the food. *)
Definition block (style : string) (c : Cell) : CanvasOp :=
  FillRect style (x c * GRID_SIZE) (y c * GRID_SIZE) GRID_SIZE GRID_SIZE.

Definition drawn (s : State) : list CanvasOp :=
  map (block "green") (snakeRef s) ++ [block "red" (foodRef s)].

Definition frame (s : State) : list CanvasOp :=
  ClearRect 0 0 CANVAS_SIZE CANVAS_SIZE :: drawn s.

(** The draws that make [Math.floor(r * (CANVAS_SIZE / GRID_SIZE))] equal to
    [k]: those of the interval [k / CELLS, (k + 1) / CELLS), of the same
    width for every [k]. *)
Definition draw_selects (r : Q) (k : Z) : Prop :=
  (inject_Z k <= r * inject_Z CELLS /\ r * inject_Z CELLS < inject_Z (k + 1))%Q.

(** A short game used to instantiate the invariants: start (the food lands on
    (11,10)), one tick that eats it, a turn upwards, one more tick. *)
Definition sample_game : list Event :=
  [StartClick (11 # 20) (1 # 2); IntervalFire (1 # 4) (3 # 4);
   KeyDown "ArrowUp"; IntervalFire (1 # 2) (1 # 2)].

(** What holds of the engine in every reachable world. *)
Record Inv (s : State) : Prop := mkInv {
  inv_nodup : NoDup (snakeRef s);
  inv_nonempty : snakeRef s <> [];
  inv_score : score s = Z.of_nat (List.length (snakeRef s)) - 1;
  inv_snake_grid : Forall in_grid (snakeRef s);
  inv_food_grid : in_grid (foodRef s);
  inv_direction : unit_vector (directionRef s);
  inv_interval : gameLoopRef s = isPlaying s;
  inv_flags : isPlaying s = true -> gameOver s = false
}.

(** ** The direction protocol in the words of the specification

    The specification keeps two directions: the committed one, which the
    last tick used, and a pending one, which [setDirection] writes unless the
    request is the exact opposite of the committed one, and which the next
    tick commits.  These definitions follow that text; they are compared with
    [handleKeyPress] below. *)
Record SpecDirections : Set := mkSpecDirections {
  direction : Cell;
  pendingDirection : Cell
}.

Definition spec_setDirection (d : Cell) (sd : SpecDirections) : SpecDirections :=
  if (x d =? - x (direction sd)) && (y d =? - y (direction sd)) then sd
  else mkSpecDirections (direction sd) d.

Definition spec_commit (sd : SpecDirections) : SpecDirections :=
  mkSpecDirections (pendingDirection sd) (pendingDirection sd).

(** The requests of a sequence of key presses between two ticks, in the
    specification and in the program. *)
Definition spec_keys (keys : list string) (sd : SpecDirections) : SpecDirections :=
  fold_left
    (fun acc key =>
       match keyDirection key with
       | Some d => spec_setDirection d acc
       | None => acc
       end) keys sd.

Definition code_keys (keys : list string) (s : State) : State :=
  fold_left (fun acc key => handleKeyPress key acc) keys s.

(** The specification's directions right after a tick that used the
    direction of [s]. *)
Definition spec_after_tick (s : State) : SpecDirections :=
  mkSpecDirections (directionRef s) (directionRef s).

(** The program's requests in the vocabulary of the specification: every
    request is judged as the specification says, but what it records is
    committed at once instead of at the next tick. *)
Definition spec_keys_committing (keys : list string) (sd : SpecDirections)
  : SpecDirections :=
  fold_left
    (fun acc key =>
       match keyDirection key with
       | Some d => spec_commit (spec_setDirection d acc)
       | None => acc
       end) keys sd.

(** A game after its first tick, which moved the snake to the right and ate
    the food: snake [(11,10),(10,10)], direction (1,0). *)
Definition after_first_tick : State :=
  fst (run [StartClick (11 # 20) (1 # 2); IntervalFire (1 # 4) (3 # 4)] mounted).

(** Two key presses that arrive before the next tick. *)
Definition turn_back : list string := ["ArrowUp"%string; "ArrowLeft"%string].

(** A game just started, the food on (15,5), before the interval fires. *)
Definition just_started : World := step (StartClick (3 # 4) (1 # 4)) mounted.

(** ** Further vocabulary: shape of the snake, the canvas, runs of ticks *)

(** Two cells that share a side. *)
Definition adjacent (a b : Cell) : Prop :=
  Z.abs (x a - x b) + Z.abs (y a - y b) = 1.

(** Every segment shares a side with the next one. *)
Fixpoint chain (l : list Cell) : Prop :=
  match l with
  | a :: (b :: _) as rest => adjacent a b /\ chain rest
  | _ => True
  end.

(** The cells of the grid, column by column. *)
Definition all_cells : list Cell :=
  flat_map
    (fun i => map (fun j => mkCell (Z.of_nat i) (Z.of_nat j)) (seq 0 (Z.to_nat CELLS)))
    (seq 0 (Z.to_nat CELLS)).

(** A drawing call that stays on the canvas: a clear of the whole canvas, or
    a block of one grid cell inside it. *)
Definition op_in_canvas (op : CanvasOp) : Prop :=
  match op with
  | ClearRect px py w h => px = 0 /\ py = 0 /\ w = CANVAS_SIZE /\ h = CANVAS_SIZE
  | FillRect style px py w h =>
      (style = "green"%string \/ style = "red"%string) /\
      w = GRID_SIZE /\ h = GRID_SIZE /\
      0 <= px /\ px + w <= CANVAS_SIZE /\ 0 <= py /\ py + h <= CANVAS_SIZE
  end.

Definition is_start (ev : Event) : bool :=
  match ev with
  | StartClick _ _ => true
  | _ => false
  end.

(** The interval firing once per pair of draws, with nothing in between. *)
Definition ticks (draws : list (Q * Q)) : list Event :=
  map (fun d => IntervalFire (fst d) (snd d)) draws.

(** How many more cells the head can advance in the current direction before
    it leaves the grid. *)
Definition steps_to_wall (s : State) : Z :=
  match snakeRef s with
  | [] => 0
  | first :: _ =>
      if x (directionRef s) =? 1 then CELLS - 1 - x first
      else if x (directionRef s) =? -1 then x first
      else if y (directionRef s) =? 1 then CELLS - 1 - y first
      else y first
  end.

(** A game lost by turning back: start, one tick that eats, the presses up
    and left, and the tick that runs the head into the second segment. *)
Definition lost_game : list Event :=
  [StartClick (11 # 20) (1 # 2); IntervalFire (1 # 4) (3 # 4); KeyDown "ArrowUp";
   KeyDown "ArrowLeft"; IntervalFire (1 # 2) (1 # 2)].

(** ** Proof steps used throughout *)

(** Reduce field reads of updated states. *)
Ltac fields :=
  cbn [snakeRef foodRef directionRef score gameOver isPlaying gameLoopRef
       set_snake set_food set_direction setScore setGameOver setIsPlaying
       clearInterval setInterval startGame].

(** Membership of a literal cell in the grid. *)
Ltac grid_cell := unfold in_grid; cbn [x y]; change CELLS with 20; lia.

(** * Properties *)

(** ** Elementary facts *)

Lemma CELLS_exact : CANVAS_SIZE = GRID_SIZE * CELLS /\ CELLS = 20.
Proof. split; reflexivity. Qed.

Lemma same_cell_true (a b : Cell) : same_cell a b = true <-> a = b.
Proof.
  unfold same_cell. rewrite andb_true_iff, !Z.eqb_eq.
  destruct a as [ax ay], b as [bx b_y]; simpl. split.
  - intros [-> ->]. reflexivity.
  - intros E. injection E as -> ->. split; reflexivity.
Qed.

Lemma same_cell_false (a b : Cell) : same_cell a b = false <-> a <> b.
Proof.
  rewrite <- same_cell_true. destruct (same_cell a b); split; congruence.
Qed.

Lemma some_same_cell (head : Cell) (l : list Cell) :
  existsb (fun segment => same_cell segment head) l = true <-> In head l.
Proof.
  rewrite existsb_exists. split.
  - intros [c [Hin Hc]]. apply same_cell_true in Hc. subst c. exact Hin.
  - intros Hin. exists head. split; [exact Hin | now apply same_cell_true].
Qed.

Lemma collides_true (head : Cell) (s : State) :
  collides head s = true <-> ~ in_grid head \/ In head (snakeRef s).
Proof.
  unfold collides, in_grid.
  rewrite !orb_true_iff, !Z.ltb_lt, !Z.geb_le, some_same_cell.
  split.
  - intros [[[[H | H] | H] | H] | H]; [left; lia .. | right; exact H].
  - intros [H | H]; [| right; exact H]. left.
    destruct (Z.ltb_spec (x head) 0); [tauto |].
    destruct (Z.ltb_spec (y head) 0); [tauto |].
    destruct (Z.leb_spec CELLS (x head)); [tauto |].
    destruct (Z.leb_spec CELLS (y head)); [tauto |].
    exfalso. apply H. lia.
Qed.

Lemma collides_false (head : Cell) (s : State) :
  collides head s = false <-> in_grid head /\ ~ In head (snakeRef s).
Proof.
  split.
  - intros Hc. split.
    + unfold collides in Hc. rewrite !orb_false_iff in Hc.
      destruct Hc as [[[[H1 H2] H3] H4] _].
      apply Z.ltb_ge in H1, H2. unfold Z.geb in H3, H4. unfold in_grid.
      destruct (x head ?= CELLS) eqn:E3; try discriminate.
      destruct (y head ?= CELLS) eqn:E4; try discriminate.
      rewrite Z.compare_lt_iff in E3, E4. lia.
    + intros Hin. assert (collides head s = true) by (apply collides_true; now right).
      congruence.
  - intros [Hg Hn]. destruct (collides head s) eqn:E; [| reflexivity].
    apply collides_true in E. tauto.
Qed.

(** The three outcomes of [moveSnake] on a non-empty snake. *)
Lemma moveSnake_collision rx ry s first rest :
  snakeRef s = first :: rest ->
  collides (moved_head first s) s = true ->
  moveSnake rx ry s = clearInterval (setIsPlaying false (setGameOver true s)).
Proof. intros Hs Hc. unfold moveSnake. rewrite Hs, Hc. reflexivity. Qed.

Lemma moveSnake_eat rx ry s first rest :
  snakeRef s = first :: rest ->
  collides (moved_head first s) s = false ->
  same_cell (moved_head first s) (foodRef s) = true ->
  moveSnake rx ry s =
  set_food (getRandomPosition rx ry)
    (setScore (fun prevScore => prevScore + 1)
       (set_snake (moved_head first s :: snakeRef s) s)).
Proof.
  intros Hs Hc Hf. unfold moveSnake. rewrite Hs, Hc.
  cbn [foodRef set_snake snakeRef]. rewrite Hf. reflexivity.
Qed.

Lemma moveSnake_advance rx ry s first rest :
  snakeRef s = first :: rest ->
  collides (moved_head first s) s = false ->
  same_cell (moved_head first s) (foodRef s) = false ->
  moveSnake rx ry s =
  set_snake (moved_head first s :: removelast (snakeRef s)) s.
Proof.
  intros Hs Hc Hf. unfold moveSnake. rewrite Hs, Hc. cbn [foodRef set_snake snakeRef].
  rewrite Hf. reflexivity.
Qed.

Lemma phase_Running (s : State) : phase s = Running <-> isPlaying s = true.
Proof.
  unfold phase. destruct (isPlaying s), (gameOver s); split; congruence.
Qed.

(** ** Facts about [pop] *)

Lemma removelast_In (A : Type) (a : A) (l : list A) :
  In a (removelast l) -> In a l.
Proof.
  induction l as [| b l IH]; simpl; [tauto |].
  destruct l as [| c l]; simpl in *; [tauto |].
  intros [H | H]; [now left | right; apply IH; exact H].
Qed.

Lemma removelast_NoDup (A : Type) (l : list A) :
  NoDup l -> NoDup (removelast l).
Proof.
  induction 1 as [| a l Hnotin Hnd IH]; simpl; [constructor |].
  destruct l as [| c l]; [constructor |].
  constructor; [| exact IH].
  intros Hin. apply Hnotin. now apply removelast_In.
Qed.

Lemma removelast_Forall (A : Type) (P : A -> Prop) (l : list A) :
  Forall P l -> Forall P (removelast l).
Proof.
  rewrite !Forall_forall. intros H a Ha. apply H. now apply removelast_In.
Qed.

Lemma removelast_length (A : Type) (l : list A) :
  l <> [] -> S (List.length (removelast l)) = List.length l.
Proof.
  induction l as [| b l IH]; [congruence |]. intros _.
  destruct l as [| c l]; [reflexivity |].
  change (removelast (b :: c :: l)) with (b :: removelast (c :: l)).
  simpl List.length. f_equal. apply IH. discriminate.
Qed.

Lemma last_In (A : Type) (l : list A) (d : A) : l <> [] -> In (last l d) l.
Proof.
  induction l as [| b l IH]; [congruence |]. intros _.
  destruct l as [| c l]; [now left |].
  right. apply IH. discriminate.
Qed.

(** ** The terminal collision *)

Lemma collision_outcome (rx ry : Q) (s : State) (first : Cell) (rest : list Cell) :
  snakeRef s = first :: rest ->
  collides (moved_head first s) s = true ->
  phase (moveSnake rx ry s) = Over /\
  snakeRef (moveSnake rx ry s) = snakeRef s /\
  foodRef (moveSnake rx ry s) = foodRef s /\
  score (moveSnake rx ry s) = score s /\
  directionRef (moveSnake rx ry s) = directionRef s.
Proof.
  intros Hs Hbad.
  rewrite (moveSnake_collision rx ry s first rest Hs Hbad).
  repeat split; reflexivity.
Qed.

(** C2.  A tick of a running game whose new head (the head moved by the
    direction in force) is outside the grid, or is a segment of the snake as
    it was before the tick, puts the game in phase [Over] and changes nothing
    else: the snake, the food and the score are the ones before the tick. *)
Theorem C2_collision_is_terminal (rx ry : Q) (s : State) (first : Cell)
    (rest : list Cell) :
  phase s = Running ->
  snakeRef s = first :: rest ->
  ~ in_grid (moved_head first s) \/ In (moved_head first s) (snakeRef s) ->
  phase (moveSnake rx ry s) = Over /\
  snakeRef (moveSnake rx ry s) = snakeRef s /\
  foodRef (moveSnake rx ry s) = foodRef s /\
  score (moveSnake rx ry s) = score s /\
  directionRef (moveSnake rx ry s) = directionRef s.
Proof.
  intros _ Hs Hbad. apply collides_true in Hbad.
  exact (collision_outcome rx ry s first rest Hs Hbad).
Qed.

(** The scenario of the specification: snake [(0,10),(1,10)] heading left. *)
Lemma C2_witness :
  let s := mkState [mkCell 0 10; mkCell 1 10] (mkCell 15 15) (mkCell (-1) 0) 1
             false true true in
  moved_head (mkCell 0 10) s = mkCell (-1) 10 /\
  phase (moveSnake (1 # 2) (1 # 2) s) = Over /\
  snakeRef (moveSnake (1 # 2) (1 # 2) s) = [mkCell 0 10; mkCell 1 10] /\
  foodRef (moveSnake (1 # 2) (1 # 2) s) = mkCell 15 15 /\
  score (moveSnake (1 # 2) (1 # 2) s) = 1 /\
  directionRef (moveSnake (1 # 2) (1 # 2) s) = mkCell (-1) 0.
Proof.
  intros s. split; [reflexivity |].
  apply (C2_collision_is_terminal (1 # 2) (1 # 2) s (mkCell 0 10) [mkCell 1 10]).
  - reflexivity.
  - reflexivity.
  - left. unfold in_grid. simpl. lia.
Defined.

(** C7.  A tick of a running game whose snake has at least two segments and
    whose new head is the current last segment ends the game: the test runs
    over every segment of the snake before the tick, the tail included, even
    though a move without food would have freed that cell in the same tick. *)
Theorem C7_tail_cell_collides (rx ry : Q) (s : State) (first : Cell)
    (rest : list Cell) :
  phase s = Running ->
  snakeRef s = first :: rest ->
  (2 <= List.length (snakeRef s))%nat ->
  moved_head first s = last (snakeRef s) first ->
  phase (moveSnake rx ry s) = Over /\ snakeRef (moveSnake rx ry s) = snakeRef s.
Proof.
  intros Hp Hs _ Htail.
  assert (Hin : In (moved_head first s) (snakeRef s)).
  { rewrite Htail. apply last_In. rewrite Hs. discriminate. }
  assert (Hc : collides (moved_head first s) s = true)
    by (apply collides_true; now right).
  destruct (collision_outcome rx ry s first rest Hs Hc) as [H1 [H2 _]].
  split; assumption.
Qed.

(** A snake coiled in a 2 x 2 square, the head about to enter the cell of its
    tail. *)
Lemma C7_witness :
  let s := mkState [mkCell 5 5; mkCell 5 6; mkCell 6 6; mkCell 6 5] (mkCell 15 15)
             (mkCell 1 0) 3 false true true in
  phase (moveSnake (1 # 2) (1 # 2) s) = Over /\
  snakeRef (moveSnake (1 # 2) (1 # 2) s) = snakeRef s.
Proof.
  intros s.
  apply (C7_tail_cell_collides (1 # 2) (1 # 2) s (mkCell 5 5)
           [mkCell 5 6; mkCell 6 6; mkCell 6 5]).
  - reflexivity.
  - reflexivity.
  - simpl. lia.
  - reflexivity.
Defined.

(** ** Random positions *)

Lemma Qfloor_eq_iff (q : Q) (k : Z) :
  Qfloor q = k <-> (inject_Z k <= q /\ q < inject_Z (k + 1))%Q.
Proof.
  split.
  - intros <-. split; [apply Qfloor_le | apply Qlt_floor].
  - intros [Hlo Hhi]. apply Z.le_antisymm.
    + apply Z.lt_succ_r. rewrite Zlt_Qlt.
      apply Qle_lt_trans with q; [apply Qfloor_le | exact Hhi].
    + rewrite <- (Qfloor_Z k). apply Qfloor_resp_le. exact Hlo.
Qed.

Lemma getRandomPosition_selects (rx ry : Q) (c : Cell) :
  getRandomPosition rx ry = c <-> draw_selects rx (x c) /\ draw_selects ry (y c).
Proof.
  unfold draw_selects. rewrite <- !Qfloor_eq_iff.
  destruct c as [cx cy]. unfold getRandomPosition. simpl. split.
  - intros E. injection E as -> ->. split; reflexivity.
  - intros [-> ->]. reflexivity.
Qed.

Lemma scaled_draw_in_range (r : Q) :
  unit_interval r -> 0 <= Qfloor (r * inject_Z CELLS) < CELLS.
Proof.
  intros [Hlo Hhi]. split.
  - rewrite <- (Qfloor_Z 0). apply Qfloor_resp_le.
    apply Qmult_le_0_compat; [exact Hlo | discriminate].
  - rewrite Zlt_Qlt.
    apply Qle_lt_trans with (r * inject_Z CELLS)%Q; [apply Qfloor_le |].
    rewrite <- (Qmult_1_l (inject_Z CELLS)) at 2.
    apply Qmult_lt_compat_r; [reflexivity | exact Hhi].
Qed.

Lemma getRandomPosition_in_grid (rx ry : Q) :
  unit_interval rx -> unit_interval ry -> in_grid (getRandomPosition rx ry).
Proof.
  intros Hx Hy. split; simpl; now apply scaled_draw_in_range.
Qed.

(** Every cell of the grid is the image of some pair of draws. *)
Lemma getRandomPosition_onto (c : Cell) :
  in_grid c ->
  unit_interval (x c # 20) /\ unit_interval (y c # 20) /\
  getRandomPosition (x c # 20) (y c # 20) = c.
Proof.
  destruct c as [cx cy]. unfold in_grid, unit_interval. simpl x; simpl y.
  change CELLS with 20. intros [Hx Hy].
  unfold Qle, Qlt. simpl Qnum; simpl Qden. repeat split; try lia.
  unfold getRandomPosition, Qfloor. change CELLS with 20. simpl.
  rewrite !Z.div_mul by discriminate. reflexivity.
Qed.

(** ** Eating and plain moves *)




(** C4.  A tick of a running game that neither collides nor reaches the food
    keeps the length of the snake: the new head, the old head moved by the
    direction in force (one unit along one axis, the direction being one of
    the four unit vectors), is prepended and the last segment is removed; the
    score and the food are the ones before the tick. *)
Theorem C4_plain_move (rx ry : Q) (s : State) (first : Cell) (rest : list Cell) :
  phase s = Running ->
  snakeRef s = first :: rest ->
  collides (moved_head first s) s = false ->
  moved_head first s <> foodRef s ->
  snakeRef (moveSnake rx ry s) =
    mkCell (x first + x (directionRef s)) (y first + y (directionRef s))
    :: removelast (snakeRef s) /\
  List.length (snakeRef (moveSnake rx ry s)) = List.length (snakeRef s) /\
  score (moveSnake rx ry s) = score s /\
  foodRef (moveSnake rx ry s) = foodRef s /\
  phase (moveSnake rx ry s) = Running /\
  (unit_vector (directionRef s) ->
   Z.abs (x (directionRef s)) + Z.abs (y (directionRef s)) = 1).
Proof.
  intros Hp Hs Hc Hfood.
  assert (Hf : same_cell (moved_head first s) (foodRef s) = false)
    by now apply same_cell_false.
  rewrite (moveSnake_advance rx ry s first rest Hs Hc Hf).
  cbn [score snakeRef foodRef set_snake].
  split; [reflexivity |]. split; [| split; [reflexivity |]; split; [reflexivity |]; split].
  - simpl List.length. apply removelast_length. rewrite Hs. discriminate.
  - apply phase_Running in Hp. unfold phase.
    cbn [isPlaying gameOver set_snake]. rewrite Hp. reflexivity.
  - intros [-> | [-> | [-> | ->]]]; reflexivity.
Qed.

(** A snake of three segments moving right in the open. *)
Lemma C4_witness :
  let s := mkState [mkCell 5 5; mkCell 4 5; mkCell 3 5] (mkCell 15 15) (mkCell 1 0)
             2 false true true in
  snakeRef (moveSnake (1 # 2) (1 # 2) s) = [mkCell 6 5; mkCell 5 5; mkCell 4 5] /\
  List.length (snakeRef (moveSnake (1 # 2) (1 # 2) s)) = 3%nat /\
  score (moveSnake (1 # 2) (1 # 2) s) = 2 /\
  foodRef (moveSnake (1 # 2) (1 # 2) s) = mkCell 15 15 /\
  phase (moveSnake (1 # 2) (1 # 2) s) = Running.
Proof.
  intros s.
  destruct (C4_plain_move (1 # 2) (1 # 2) s (mkCell 5 5) [mkCell 4 5; mkCell 3 5])
    as [H1 [H2 [H3 [H4 [H5 _]]]]].
  - reflexivity.
  - reflexivity.
  - reflexivity.
  - discriminate.
  - repeat split; assumption.
Defined.

(** ** The invariant of the reachable worlds *)

Lemma Inv_initial : Inv initial.
Proof.
  constructor; simpl; try reflexivity.
  - repeat constructor; simpl; tauto.
  - discriminate.
  - constructor; [grid_cell | constructor].
  - grid_cell.
  - left. reflexivity.
Qed.

Lemma Inv_startGame (rx ry : Q) (s : State) :
  unit_interval rx -> unit_interval ry ->
  isPlaying s = false ->
  Inv (rerender s (startGame rx ry s)).
Proof.
  intros Hx Hy Hp. unfold rerender.
  cbn [isPlaying startGame setIsPlaying]. rewrite Hp. cbn [Bool.eqb].
  unfold isPlaying_effect. cbn [isPlaying startGame setIsPlaying].
  constructor; fields; try reflexivity.
  - repeat constructor; simpl; tauto.
  - discriminate.
  - constructor; [grid_cell | constructor].
  - now apply getRandomPosition_in_grid.
  - left. reflexivity.
Qed.

Lemma Inv_handleKeyPress (key : string) (s : State) :
  Inv s -> Inv (handleKeyPress key s).
Proof.
  intros [H1 H2 H3 H4 H5 H6 H7 H8]. unfold handleKeyPress.
  repeat match goal with
         | |- Inv (if ?b then _ else _) => destruct b
         end;
    try (constructor; assumption);
    constructor; fields; try assumption; unfold unit_vector; tauto.
Qed.

Lemma Inv_moveSnake (rx ry : Q) (s : State) :
  unit_interval rx -> unit_interval ry ->
  Inv s -> Inv (rerender s (moveSnake rx ry s)).
Proof.
  intros Hx Hy HI. pose proof HI as [H1 H2 H3 H4 H5 H6 H7 H8].
  destruct (snakeRef s) as [| first rest] eqn:Hs; [congruence |].
  destruct (collides (moved_head first s) s) eqn:Hc.
  - rewrite (moveSnake_collision rx ry s first rest Hs Hc).
    unfold rerender, isPlaying_effect.
    cbn [isPlaying clearInterval setIsPlaying setGameOver].
    destruct (isPlaying s); cbn [Bool.eqb];
      constructor; fields; rewrite ?Hs; try assumption; try reflexivity;
      discriminate.
  - apply collides_false in Hc. destruct Hc as [Hgrid Hfresh]. rewrite Hs in Hfresh.
    destruct (same_cell (moved_head first s) (foodRef s)) eqn:Hf.
    + rewrite (moveSnake_eat rx ry s first rest Hs
                 ltac:(apply collides_false; rewrite Hs; tauto) Hf).
      unfold rerender. cbn [isPlaying set_food setScore set_snake].
      rewrite Bool.eqb_reflx.
      constructor; fields; rewrite ?Hs; try assumption.
      * constructor; assumption.
      * discriminate.
      * rewrite H3. simpl List.length. lia.
      * constructor; assumption.
      * now apply getRandomPosition_in_grid.
    + rewrite (moveSnake_advance rx ry s first rest Hs
                 ltac:(apply collides_false; rewrite Hs; tauto) Hf).
      unfold rerender. cbn [isPlaying set_snake].
      rewrite Bool.eqb_reflx.
      constructor; fields; rewrite ?Hs; try assumption.
      * constructor; [| now apply removelast_NoDup].
        intros Hin. apply Hfresh. now apply removelast_In.
      * discriminate.
      * rewrite H3.
        change (List.length (moved_head first s :: removelast (first :: rest)))
          with (S (List.length (removelast (first :: rest)))).
        rewrite (removelast_length _ (first :: rest)) by discriminate. reflexivity.
      * constructor; [assumption | now apply removelast_Forall].
Qed.

Lemma step_Inv (ev : Event) (w : World) :
  valid_event ev -> Inv (fst w) -> Inv (fst (step ev w)).
Proof.
  destruct ev as [rx ry | key | rx ry]; simpl; intros Hv HI.
  - destruct (isPlaying (fst w)) eqn:Hp; [exact HI |].
    simpl. now apply Inv_startGame.
  - now apply Inv_handleKeyPress.
  - destruct (gameLoopRef (fst w)); [| exact HI].
    simpl. now apply Inv_moveSnake.
Qed.

Lemma reachable_Inv (w : World) : reachable w -> Inv (fst w).
Proof.
  induction 1 as [| ev w Hr IH Hv].
  - exact Inv_initial.
  - now apply step_Inv.
Qed.

Lemma reachable_run (evs : list Event) (w : World) :
  reachable w -> Forall valid_event evs -> reachable (run evs w).
Proof.
  revert w. induction evs as [| ev evs IH]; intros w Hr Hv; simpl.
  - exact Hr.
  - inversion Hv as [| ? ? Hev Hevs]; subst.
    apply IH; [apply reach_step; assumption | assumption].
Qed.

(** The change of length of a tick is the change of score. *)
Lemma moveSnake_growth (rx ry : Q) (s : State) :
  let s' := moveSnake rx ry s in
  Z.of_nat (List.length (snakeRef s')) - Z.of_nat (List.length (snakeRef s))
  = score s' - score s /\
  (score s' = score s \/ score s' = score s + 1).
Proof.
  cbn zeta. unfold moveSnake. destruct (snakeRef s) as [| first rest] eqn:Hs.
  - rewrite ?Hs. lia.
  - destruct (collides (moved_head first s) s).
    + fields. rewrite ?Hs. lia.
    + fields.
      destruct (same_cell (moved_head first s) (foodRef s)); fields.
      * rewrite ?Hs. simpl List.length. lia.
      * rewrite ?Hs.
        change (List.length (removelast (moved_head first s :: first :: rest)))
          with (S (List.length (removelast (first :: rest)))).
        rewrite (removelast_length _ (first :: rest)) by discriminate.
        simpl List.length. lia.
Qed.

Lemma sample_game_valid : Forall valid_event sample_game.
Proof.
  unfold sample_game, valid_event, unit_interval, Qle, Qlt.
  repeat constructor; simpl; lia.
Qed.

(** C5.  In every reachable world the snake has no duplicate cell and at
    least one segment.  This holds in each of the three phases: while the
    game is idle or running, and also once it is over, since the tick that
    ends the game leaves the snake as it was. *)
Theorem C5_snake_has_no_duplicates (w : World) :
  reachable w ->
  NoDup (snakeRef (fst w)) /\ (1 <= List.length (snakeRef (fst w)))%nat.
Proof.
  intros Hr. destruct (reachable_Inv w Hr) as [Hnd Hne _ _ _ _ _ _].
  split; [exact Hnd |].
  destruct (snakeRef (fst w)); [congruence | simpl; lia].
Qed.

Lemma C5_witness :
  phase (fst (run sample_game mounted)) = Running /\
  snakeRef (fst (run sample_game mounted)) = [mkCell 11 9; mkCell 11 10] /\
  NoDup (snakeRef (fst (run sample_game mounted))) /\
  (1 <= List.length (snakeRef (fst (run sample_game mounted))))%nat.
Proof.
  split; [reflexivity |]. split; [reflexivity |].
  apply (C5_snake_has_no_duplicates (run sample_game mounted)).
  apply reachable_run; [exact reach_mounted | exact sample_game_valid].
Defined.

(** C9.  In every reachable world whose phase is [Running], the score is the
    length of the snake minus 1.  A tick changes the length by what it adds
    to the score (0 or 1), and a start gives score 0 with a snake of one
    segment. *)
Theorem C9_score_is_length_minus_one (w : World) :
  reachable w ->
  phase (fst w) = Running ->
  score (fst w) = Z.of_nat (List.length (snakeRef (fst w))) - 1 /\
  (forall rx ry : Q,
      Z.of_nat (List.length (snakeRef (moveSnake rx ry (fst w))))
      - Z.of_nat (List.length (snakeRef (fst w)))
      = score (moveSnake rx ry (fst w)) - score (fst w) /\
      (score (moveSnake rx ry (fst w)) = score (fst w) \/
       score (moveSnake rx ry (fst w)) = score (fst w) + 1)) /\
  (forall rx ry : Q,
      score (startGame rx ry (fst w)) = 0 /\
      List.length (snakeRef (startGame rx ry (fst w))) = 1%nat).
Proof.
  intros Hr _. destruct (reachable_Inv w Hr) as [_ _ Hscore _ _ _ _ _].
  split; [exact Hscore |]. split.
  - intros rx ry. exact (moveSnake_growth rx ry (fst w)).
  - intros rx ry. split; reflexivity.
Qed.

Lemma C9_witness :
  score (fst (run sample_game mounted)) = 1 /\
  List.length (snakeRef (fst (run sample_game mounted))) = 2%nat /\
  score (fst (run sample_game mounted))
  = Z.of_nat (List.length (snakeRef (fst (run sample_game mounted)))) - 1.
Proof.
  split; [reflexivity |]. split; [reflexivity |].
  apply (C9_score_is_length_minus_one (run sample_game mounted)).
  - apply reachable_run; [exact reach_mounted | exact sample_game_valid].
  - reflexivity.
Defined.

(** C10.  In every reachable world whose phase is [Running], every segment
    of the snake and the food lie in [0, N) x [0, N), with N = 20.  The origin
    (10,10) is in the grid, a resampled food is in the grid for every pair of
    draws of [0, 1), and a new head is added to the snake only when it is in
    the grid. *)
Theorem C10_everything_in_grid (w : World) :
  reachable w ->
  phase (fst w) = Running ->
  CELLS = 20 /\
  Forall in_grid (snakeRef (fst w)) /\
  in_grid (foodRef (fst w)) /\
  in_grid (mkCell 10 10) /\
  (forall rx ry : Q,
      unit_interval rx -> unit_interval ry -> in_grid (getRandomPosition rx ry)) /\
  (forall (rx ry : Q) (c : Cell),
      In c (snakeRef (moveSnake rx ry (fst w))) ->
      In c (snakeRef (fst w)) \/ in_grid c).
Proof.
  intros Hr _. destruct (reachable_Inv w Hr) as [_ _ _ Hsnake Hfood _ _ _].
  split; [reflexivity |]. split; [exact Hsnake |]. split; [exact Hfood |].
  split; [grid_cell |]. split; [exact getRandomPosition_in_grid |].
  intros rx ry c. unfold moveSnake.
  destruct (snakeRef (fst w)) as [| first rest] eqn:Hs.
  - rewrite ?Hs. tauto.
  - destruct (collides (moved_head first (fst w)) (fst w)) eqn:Hc.
    + fields. rewrite ?Hs. tauto.
    + apply collides_false in Hc. destruct Hc as [Hg _].
      cbn zeta. fields.
      destruct (same_cell (moved_head first (fst w)) (foodRef (fst w))); fields.
      * rewrite ?Hs. intros [<- | Hin]; [right; exact Hg | left; exact Hin].
      * change (removelast (moved_head first (fst w) :: first :: rest))
          with (moved_head first (fst w) :: removelast (first :: rest)).
        intros [<- | Hin]; [right; exact Hg |].
        left. now apply removelast_In.
Qed.

Lemma C10_witness :
  snakeRef (fst (run sample_game mounted)) = [mkCell 11 9; mkCell 11 10] /\
  foodRef (fst (run sample_game mounted)) = mkCell 5 15 /\
  Forall in_grid (snakeRef (fst (run sample_game mounted))) /\
  in_grid (foodRef (fst (run sample_game mounted))).
Proof.
  split; [reflexivity |]. split; [reflexivity |].
  destruct (C10_everything_in_grid (run sample_game mounted)) as [_ [Hs [Hf _]]].
  - apply reachable_run; [exact reach_mounted | exact sample_game_valid].
  - reflexivity.
  - split; assumption.
Defined.

(** ** Starting a game *)



(** ** Direction requests *)

Lemma keyDirection_unit (key : string) (d : Cell) :
  keyDirection key = Some d -> unit_vector d.
Proof.
  unfold keyDirection, unit_vector.
  repeat match goal with
         | |- (if ?b then _ else _) = _ -> _ => destruct b
         end; intros E; inversion E; tauto.
Qed.

Lemma keyDirection_None (key : string) (s : State) :
  keyDirection key = None -> handleKeyPress key s = s.
Proof.
  unfold keyDirection, handleKeyPress.
  repeat match goal with
         | |- (if ?b then _ else _) = _ -> _ => destruct b
         end; intros E; try discriminate E.
  destruct (negb (isPlaying s)); reflexivity.
Qed.

(** The switch of [handleKeyPress], by the direction the key asks for: a
    vertical request passes when the current direction has no vertical
    component, a horizontal one when it has no horizontal component. *)
Lemma handleKeyPress_guard (key : string) (s : State) (d : Cell) :
  isPlaying s = true ->
  keyDirection key = Some d ->
  handleKeyPress key s =
  if (if x d =? 0 then y (directionRef s) =? 0 else x (directionRef s) =? 0)
  then set_direction d s else s.
Proof.
  intros Hp. unfold keyDirection, handleKeyPress. rewrite Hp. cbn [negb].
  repeat match goal with
         | |- (if ?b then _ else _) = _ -> _ => destruct b
         end; intros E; inversion E; reflexivity.
Qed.

Lemma set_direction_same (s : State) : set_direction (directionRef s) s = s.
Proof. destruct s. reflexivity. Qed.

Lemma handleKeyPress_accepts (key : string) (s : State) (d : Cell) :
  isPlaying s = true ->
  unit_vector (directionRef s) ->
  keyDirection key = Some d ->
  d <> opposite (directionRef s) ->
  handleKeyPress key s = set_direction d s.
Proof.
  intros Hp Hu Hk Hd. rewrite (handleKeyPress_guard key s d Hp Hk).
  pose proof (keyDirection_unit key d Hk) as Hdu.
  destruct Hu as [E | [E | [E | E]]]; rewrite E in *;
    destruct Hdu as [-> | [-> | [-> | ->]]]; cbn in *;
    try reflexivity; try (exfalso; apply Hd; reflexivity);
    rewrite <- E; symmetry; apply set_direction_same.
Qed.

Lemma handleKeyPress_rejects (key : string) (s : State) (d : Cell) :
  isPlaying s = true ->
  unit_vector (directionRef s) ->
  keyDirection key = Some d ->
  d = opposite (directionRef s) ->
  handleKeyPress key s = s.
Proof.
  intros Hp Hu Hk Hd. rewrite (handleKeyPress_guard key s d Hp Hk).
  destruct Hu as [E | [E | [E | E]]]; rewrite E in *; subst d; reflexivity.
Qed.

Lemma opposite_test (d c : Cell) :
  (x d =? - x c) && (y d =? - y c) = true <-> d = opposite c.
Proof.
  rewrite andb_true_iff, !Z.eqb_eq. destruct d as [dx dy]. unfold opposite.
  cbn [x y]. split.
  - intros [-> ->]. reflexivity.
  - intros E. injection E as -> ->. split; reflexivity.
Qed.

Lemma unit_vector_not_own_opposite (c : Cell) : unit_vector c -> c <> opposite c.
Proof. intros [-> | [-> | [-> | ->]]]; discriminate. Qed.

Lemma handleKeyPress_isPlaying (key : string) (s : State) :
  isPlaying (handleKeyPress key s) = isPlaying s.
Proof.
  unfold handleKeyPress.
  repeat match goal with
         | |- isPlaying (if ?b then _ else _) = _ => destruct b
         end; reflexivity.
Qed.

(** Between two ticks the program follows the specification's rule with
    every accepted request committed at once. *)
Lemma code_keys_committing (keys : list string) :
  forall s : State,
    isPlaying s = true ->
    unit_vector (directionRef s) ->
    directionRef (code_keys keys s)
    = direction (spec_keys_committing keys (spec_after_tick s)).
Proof.
  induction keys as [| key keys IH]; intros s Hp Hu; [reflexivity |].
  unfold code_keys, spec_keys_committing. cbn [fold_left].
  fold (code_keys keys (handleKeyPress key s)).
  destruct (keyDirection key) as [d |] eqn:Hk.
  - assert (Hnext :
      spec_commit (spec_setDirection d (spec_after_tick s))
      = spec_after_tick (handleKeyPress key s)).
    { unfold spec_setDirection, spec_after_tick. cbn [direction].
      destruct ((x d =? - x (directionRef s)) && (y d =? - y (directionRef s)))
        eqn:Ht.
      - apply opposite_test in Ht.
        rewrite (handleKeyPress_rejects key s d Hp Hu Hk Ht). reflexivity.
      - assert (Hd : d <> opposite (directionRef s)).
        { intros E. apply opposite_test in E. congruence. }
        rewrite (handleKeyPress_accepts key s d Hp Hu Hk Hd). reflexivity. }
    rewrite Hnext. apply IH.
    + rewrite handleKeyPress_isPlaying. exact Hp.
    + unfold spec_after_tick in Hnext. apply (f_equal direction) in Hnext.
      cbn [direction spec_commit] in Hnext. rewrite <- Hnext.
      unfold spec_setDirection. cbn [direction].
      destruct ((x d =? - x (directionRef s)) && (y d =? - y (directionRef s)));
        cbn [pendingDirection]; [exact Hu | exact (keyDirection_unit key d Hk)].
  - rewrite (keyDirection_None key s Hk). apply IH; assumption.
Qed.




(** ** Rendering *)

Lemma forEach_fillRect (l : list Cell) :
  forall ctx : Ctx,
    fold_left
      (fun c segment =>
         fillRect (x segment * GRID_SIZE) (y segment * GRID_SIZE) GRID_SIZE
           GRID_SIZE c) l ctx
    = mkCtx (fillStyle ctx) (ops ctx ++ map (block (fillStyle ctx)) l).
Proof.
  induction l as [| segment l IH]; intros ctx; cbn [fold_left map].
  - rewrite app_nil_r. destruct ctx; reflexivity.
  - rewrite IH. unfold fillRect at 1 2. cbn [fillStyle ops].
    rewrite <- app_assoc. reflexivity.
Qed.

Lemma drawSnake_ops (s : State) (ctx : Ctx) :
  drawSnake s ctx = mkCtx "green" (ops ctx ++ map (block "green") (snakeRef s)).
Proof. unfold drawSnake. rewrite forEach_fillRect. reflexivity. Qed.

Lemma drawFood_ops (s : State) (ctx : Ctx) :
  drawFood s ctx = mkCtx "red" (ops ctx ++ [block "red" (foodRef s)]).
Proof. reflexivity. Qed.

Lemma updateGame_draws_then_moves (rx ry : Q) (w : World) :
  updateGame rx ry w
  = (moveSnake rx ry (fst w), mkCtx "red" (ops (snd w) ++ frame (fst w))).
Proof.
  unfold updateGame. cbn zeta. rewrite drawFood_ops, drawSnake_ops.
  unfold clearRect, frame, drawn. cbn [ops].
  rewrite <- !app_assoc. reflexivity.
Qed.

(** C8, as the program has it.  Each run of the interval callback clears the
    sink, draws every segment of the snake and the food of the state it
    finds, and only then moves the snake: the frame depicts the state before
    that tick, that is the state the previous tick (or the start) produced.
    The callback runs only while the interval is live, so a state produced by
    a tick is drawn by the next callback if the game is still running.  At
    mount the snake and the food of the idle state are drawn once on the
    fresh canvas, with no clear. *)
Theorem C8_frame_drawn_before_move :
  (forall (rx ry : Q) (w : World),
      ops (snd (updateGame rx ry w)) = ops (snd w) ++ frame (fst w) /\
      fst (updateGame rx ry w) = moveSnake rx ry (fst w)) /\
  (forall (rx ry rx' ry' : Q) (w : World),
      ops (snd (updateGame rx' ry' (updateGame rx ry w)))
      = (ops (snd w) ++ frame (fst w)) ++ frame (moveSnake rx ry (fst w))) /\
  (forall (rx ry : Q) (w : World),
      gameLoopRef (fst w) = true ->
      ops (snd (step (IntervalFire rx ry) w)) = ops (snd w) ++ frame (fst w)) /\
  (forall (rx ry : Q) (w : World),
      gameLoopRef (fst w) = false -> step (IntervalFire rx ry) w = w) /\
  ops (snd mounted) = drawn initial.
Proof.
  split; [| split; [| split; [| split]]].
  - intros rx ry w. rewrite updateGame_draws_then_moves. split; reflexivity.
  - intros rx ry rx' ry' w. rewrite !updateGame_draws_then_moves. reflexivity.
  - intros rx ry w Hlive. cbn [step]. rewrite Hlive. cbn zeta.
    rewrite updateGame_draws_then_moves. reflexivity.
  - intros rx ry w Hdead. cbn [step]. rewrite Hdead. reflexivity.
  - reflexivity.
Qed.

Lemma C8_witness :
  ops (snd (step (IntervalFire (1 # 2) (1 # 2)) just_started))
  = ops (snd just_started) ++ frame (fst just_started).
Proof.
  destruct C8_frame_drawn_before_move as [_ [_ [H _]]].
  apply (H (1 # 2) (1 # 2) just_started). reflexivity.
Defined.

(** The claim as the specification words it fails: the frame drawn by the
    first callback of a game shows the snake on (10,10), where it was before
    the tick, not on (11,10), where the tick has put it. *)
Lemma C8_counterexample :
  snakeRef (fst (step (IntervalFire (1 # 2) (1 # 2)) just_started)) = [mkCell 11 10] /\
  ops (snd (step (IntervalFire (1 # 2) (1 # 2)) just_started))
  = ops (snd just_started)
    ++ [ClearRect 0 0 400 400; FillRect "green" 200 200 20 20;
        FillRect "red" 300 100 20 20] /\
  ops (snd (step (IntervalFire (1 # 2) (1 # 2)) just_started))
  <> ops (snd just_started)
     ++ frame (fst (step (IntervalFire (1 # 2) (1 # 2)) just_started)).
Proof.
  split; [reflexivity |]. split; [reflexivity |].
  vm_compute. discriminate.
Qed.

(** * Further properties of the game *)

(** ** Keys *)

Lemma handleKeyPress_frame (key : string) (s : State) :
  snakeRef (handleKeyPress key s) = snakeRef s /\
  foodRef (handleKeyPress key s) = foodRef s /\
  score (handleKeyPress key s) = score s /\
  gameOver (handleKeyPress key s) = gameOver s /\
  isPlaying (handleKeyPress key s) = isPlaying s /\
  gameLoopRef (handleKeyPress key s) = gameLoopRef s.
Proof.
  unfold handleKeyPress.
  destruct (negb (isPlaying s)); [repeat split |].
  destruct (String.eqb key "ArrowUp");
    [destruct (y (directionRef s) =? 0); repeat split |].
  destruct (String.eqb key "ArrowDown");
    [destruct (y (directionRef s) =? 0); repeat split |].
  destruct (String.eqb key "ArrowLeft");
    [destruct (x (directionRef s) =? 0); repeat split |].
  destruct (String.eqb key "ArrowRight");
    [destruct (x (directionRef s) =? 0); repeat split |].
  repeat split.
Qed.

(** X1.  A key press never touches the snake, the food, the score, the flags
    or the interval; it can only replace [directionRef].  While the game is
    not playing, and for every key other than the four arrows, it changes
    nothing at all. *)
Theorem X1_key_press_only_turns (key : string) (s : State) :
  snakeRef (handleKeyPress key s) = snakeRef s /\
  foodRef (handleKeyPress key s) = foodRef s /\
  score (handleKeyPress key s) = score s /\
  gameOver (handleKeyPress key s) = gameOver s /\
  isPlaying (handleKeyPress key s) = isPlaying s /\
  gameLoopRef (handleKeyPress key s) = gameLoopRef s /\
  (isPlaying s = false \/ keyDirection key = None -> handleKeyPress key s = s).
Proof.
  destruct (handleKeyPress_frame key s) as [H1 [H2 [H3 [H4 [H5 H6]]]]].
  repeat (split; [assumption |]).
  intros [Hidle | Hother].
  - unfold handleKeyPress. rewrite Hidle. reflexivity.
  - now apply keyDirection_None.
Qed.

(** Keys pressed while the game is over, and a key that is not an arrow. *)
Lemma X1_witness :
  handleKeyPress "ArrowUp" (fst (run lost_game mounted)) = fst (run lost_game mounted) /\
  handleKeyPress "Enter" after_first_tick = after_first_tick.
Proof.
  split.
  - apply (X1_key_press_only_turns "ArrowUp" (fst (run lost_game mounted))).
    left. reflexivity.
  - apply (X1_key_press_only_turns "Enter" after_first_tick).
    right. reflexivity.
Defined.

(** ** Flags, interval and direction in the reachable worlds *)

(** X2.  In every reachable world the interval is live exactly when
    [isPlaying] is true, [isPlaying] and [gameOver] are never both true, and
    [directionRef] is one of the four unit vectors (so a tick moves the head
    to a cell that shares a side with it). *)
Theorem X2_interval_follows_phase (w : World) :
  reachable w ->
  gameLoopRef (fst w) = isPlaying (fst w) /\
  isPlaying (fst w) && gameOver (fst w) = false /\
  (gameLoopRef (fst w) = true <-> phase (fst w) = Running) /\
  unit_vector (directionRef (fst w)).
Proof.
  intros Hr. destruct (reachable_Inv w Hr) as [_ _ _ _ _ Hdir Hint Hflags].
  split; [exact Hint |]. split; [| split; [| exact Hdir]].
  - destruct (isPlaying (fst w)); [| reflexivity]. rewrite Hflags; reflexivity.
  - rewrite Hint. symmetry. apply phase_Running.
Qed.

Lemma X2_witness :
  gameLoopRef (fst (run sample_game mounted)) = true /\
  directionRef (fst (run sample_game mounted)) = mkCell 0 (-1) /\
  unit_vector (directionRef (fst (run sample_game mounted))).
Proof.
  split; [reflexivity |]. split; [reflexivity |].
  apply (X2_interval_follows_phase (run sample_game mounted)).
  apply reachable_run; [exact reach_mounted | exact sample_game_valid].
Defined.

(** X3.  A reachable world whose game is not playing (idle, or over) is
    frozen: key presses and interval callbacks, in any number and order,
    leave the state and the canvas as they are.  Only a click on the start
    button changes it. *)
Theorem X3_stopped_world_is_frozen (w : World) (evs : list Event) :
  reachable w ->
  isPlaying (fst w) = false ->
  Forall (fun ev => is_start ev = false) evs ->
  run evs w = w.
Proof.
  intros Hr Hp Hevs.
  destruct (reachable_Inv w Hr) as [_ _ _ _ _ _ Hint _]. rewrite Hp in Hint.
  induction Hevs as [| ev evs Hev _ IH]; [reflexivity |].
  cbn [run fold_left]. fold (run evs (step ev w)).
  assert (Hstep : step ev w = w).
  { destruct ev as [rx ry | key | rx ry]; cbn [step].
    - discriminate Hev.
    - unfold handleKeyPress. rewrite Hp. cbn [negb]. destruct w; reflexivity.
    - rewrite Hint. reflexivity. }
  rewrite Hstep. exact IH.
Qed.

Lemma lost_game_valid : Forall valid_event lost_game.
Proof.
  unfold lost_game, valid_event, unit_interval, Qle, Qlt.
  repeat constructor; simpl; lia.
Qed.

(** A game that is over ignores keys and callbacks. *)
Lemma X3_witness :
  phase (fst (run lost_game mounted)) = Over /\
  run [KeyDown "ArrowUp"; IntervalFire (1 # 2) (1 # 2); KeyDown "x"]
    (run lost_game mounted)
  = run lost_game mounted.
Proof.
  split; [reflexivity |].
  apply X3_stopped_world_is_frozen.
  - apply reachable_run; [exact reach_mounted | exact lost_game_valid].
  - reflexivity.
  - repeat constructor.
Defined.

(** ** Shape and size of the snake *)

Lemma removelast_chain (l : list Cell) : chain l -> chain (removelast l).
Proof.
  induction l as [| a l IH]; [trivial |].
  destruct l as [| b l]; [trivial |].
  intros [Hab Hrest].
  change (removelast (a :: b :: l)) with (a :: removelast (b :: l)).
  specialize (IH Hrest).
  destruct l as [| c l]; [exact I |].
  change (removelast (b :: c :: l)) with (b :: removelast (c :: l)) in *.
  split; assumption.
Qed.

Lemma moved_head_adjacent (first : Cell) (s : State) :
  unit_vector (directionRef s) -> adjacent (moved_head first s) first.
Proof.
  unfold adjacent, moved_head. cbn [x y].
  intros [-> | [-> | [-> | ->]]]; cbn [x y]; lia.
Qed.

Lemma moveSnake_chain (rx ry : Q) (s : State) :
  unit_vector (directionRef s) ->
  chain (snakeRef s) -> chain (snakeRef (moveSnake rx ry s)).
Proof.
  intros Hu Hch. unfold moveSnake.
  destruct (snakeRef s) as [| first rest] eqn:Hs; [rewrite Hs; exact I |].
  destruct (collides (moved_head first s) s); [fields; rewrite ?Hs; exact Hch |].
  fields.
  assert (Hlong : chain (moved_head first s :: first :: rest)).
  { split; [now apply moved_head_adjacent | exact Hch]. }
  destruct (same_cell (moved_head first s) (foodRef s)); fields; rewrite ?Hs.
  - exact Hlong.
  - now apply removelast_chain.
Qed.

Lemma snakeRef_rerender (before after : State) :
  snakeRef (rerender before after) = snakeRef after.
Proof.
  unfold rerender, isPlaying_effect.
  destruct (Bool.eqb (isPlaying before) (isPlaying after)); [reflexivity |].
  destruct (isPlaying after); reflexivity.
Qed.

(** X4.  In every reachable world the snake is a path on the grid: each
    segment shares a side with the next one. *)
Theorem X4_snake_is_a_path (w : World) :
  reachable w -> chain (snakeRef (fst w)).
Proof.
  induction 1 as [| ev w Hr IH Hv]; [exact I |].
  destruct (reachable_Inv w Hr) as [_ _ _ _ _ Hdir _ _].
  destruct ev as [rx ry | key | rx ry]; cbn [step].
  - destruct (isPlaying (fst w)); [exact IH |].
    cbn [fst]. rewrite snakeRef_rerender. exact I.
  - cbn [fst].
    destruct (handleKeyPress_frame key (fst w)) as [-> _]. exact IH.
  - destruct (gameLoopRef (fst w)); [| exact IH].
    cbn [fst]. rewrite snakeRef_rerender.
    rewrite updateGame_draws_then_moves. cbn [fst].
    now apply moveSnake_chain.
Qed.

Lemma X4_witness :
  snakeRef (fst (run sample_game mounted)) = [mkCell 11 9; mkCell 11 10] /\
  chain (snakeRef (fst (run sample_game mounted))).
Proof.
  split; [reflexivity |].
  apply (X4_snake_is_a_path (run sample_game mounted)).
  apply reachable_run; [exact reach_mounted | exact sample_game_valid].
Defined.

Lemma in_grid_all_cells (c : Cell) : in_grid c -> In c all_cells.
Proof.
  destruct c as [cx cy]. unfold in_grid, all_cells. cbn [x y].
  intros [Hx Hy]. apply in_flat_map. exists (Z.to_nat cx). split.
  - apply in_seq. lia.
  - apply in_map_iff. exists (Z.to_nat cy). split.
    + rewrite !Z2Nat.id by lia. reflexivity.
    + apply in_seq. lia.
Qed.

Lemma all_cells_length : List.length all_cells = 400%nat.
Proof. reflexivity. Qed.

(** X5.  In every reachable world the snake has at most 400 segments, one
    per cell of the grid, and the score lies between 0 and 399. *)
Theorem X5_score_is_bounded (w : World) :
  reachable w ->
  (List.length (snakeRef (fst w)) <= 400)%nat /\ 0 <= score (fst w) <= 399.
Proof.
  intros Hr. destruct (reachable_Inv w Hr) as [Hnd Hne Hscore Hgrid _ _ _ _].
  assert (Hlen : (List.length (snakeRef (fst w)) <= 400)%nat).
  { rewrite <- all_cells_length. apply NoDup_incl_length; [exact Hnd |].
    intros c Hc. apply in_grid_all_cells.
    rewrite Forall_forall in Hgrid. now apply Hgrid. }
  split; [exact Hlen |]. rewrite Hscore.
  destruct (snakeRef (fst w)); [congruence |]. simpl List.length in *. lia.
Qed.

Lemma X5_witness :
  score (fst (run sample_game mounted)) = 1 /\
  (List.length (snakeRef (fst (run sample_game mounted))) <= 400)%nat /\
  0 <= score (fst (run sample_game mounted)) <= 399.
Proof.
  split; [reflexivity |].
  apply (X5_score_is_bounded (run sample_game mounted)).
  apply reachable_run; [exact reach_mounted | exact sample_game_valid].
Defined.

(** ** What reaches the canvas *)

Lemma block_in_canvas (style : string) (c : Cell) :
  style = "green"%string \/ style = "red"%string ->
  in_grid c -> op_in_canvas (block style c).
Proof.
  unfold in_grid, block, op_in_canvas. change CELLS with 20.
  change CANVAS_SIZE with 400. change GRID_SIZE with 20.
  intros Hstyle [Hx Hy]. repeat split; try assumption; lia.
Qed.

Lemma drawn_in_canvas (s : State) :
  Inv s -> Forall op_in_canvas (drawn s).
Proof.
  intros [_ _ _ Hgrid Hfood _ _ _]. unfold drawn. apply Forall_app. split.
  - rewrite Forall_forall in *. intros op Hop.
    apply in_map_iff in Hop. destruct Hop as [c [<- Hc]].
    apply block_in_canvas; [now left | now apply Hgrid].
  - constructor; [| constructor]. apply block_in_canvas; [now right | exact Hfood].
Qed.

(** X6.  Everything the page ever draws stays on the canvas: in every
    reachable world each call logged on the context is either a clear of the
    whole 400 x 400 canvas or a green or red block of 20 x 20 that lies
    inside it. *)
Theorem X6_drawing_stays_on_canvas (w : World) :
  reachable w -> Forall op_in_canvas (ops (snd w)).
Proof.
  induction 1 as [| ev w Hr IH Hv].
  - change (ops (snd mounted)) with (drawn initial).
    apply drawn_in_canvas. exact Inv_initial.
  - pose proof (reachable_Inv w Hr) as HI.
    destruct ev as [rx ry | key | rx ry]; cbn [step].
    + destruct (isPlaying (fst w)); exact IH.
    + exact IH.
    + destruct (gameLoopRef (fst w)); [| exact IH].
      cbn [snd]. rewrite updateGame_draws_then_moves. cbn [snd ops].
      apply Forall_app. split; [exact IH |].
      unfold frame. constructor; [| now apply drawn_in_canvas].
      repeat split.
Qed.

Lemma X6_witness :
  List.length (ops (snd (run sample_game mounted))) = 9%nat /\
  Forall op_in_canvas (ops (snd (run sample_game mounted))).
Proof.
  split; [reflexivity |].
  apply (X6_drawing_stays_on_canvas (run sample_game mounted)).
  apply reachable_run; [exact reach_mounted | exact sample_game_valid].
Defined.

(** ** A game left alone ends *)

Lemma ticks_when_stopped (draws : list (Q * Q)) (w : World) :
  gameLoopRef (fst w) = false -> run (ticks draws) w = w.
Proof.
  intros Hdead. induction draws as [| d draws IH]; [reflexivity |].
  cbn [ticks map run fold_left step]. rewrite Hdead. exact IH.
Qed.

Lemma steps_to_wall_range (s : State) :
  Inv s -> 0 <= steps_to_wall s <= CELLS - 1.
Proof.
  intros [_ Hne _ Hgrid _ _ _ _]. unfold steps_to_wall.
  destruct (snakeRef s) as [| first rest]; [congruence |].
  apply Forall_inv in Hgrid. destruct Hgrid as [Hx Hy].
  repeat match goal with
         | |- context [if ?b then _ else _] => destruct b
         end; lia.
Qed.

(** One callback of a playing game either ends it or brings the head one
    cell closer to the wall it is heading for. *)
Lemma tick_progress (rx ry : Q) (s : State) :
  Inv s ->
  isPlaying s = true ->
  (isPlaying (rerender s (moveSnake rx ry s)) = false /\
   gameOver (rerender s (moveSnake rx ry s)) = true /\
   gameLoopRef (rerender s (moveSnake rx ry s)) = false)
  \/
  (isPlaying (rerender s (moveSnake rx ry s)) = true /\
   steps_to_wall (rerender s (moveSnake rx ry s)) = steps_to_wall s - 1).
Proof.
  intros [_ Hne _ _ _ Hdir _ _] Hp. unfold moveSnake, steps_to_wall at 2.
  destruct (snakeRef s) as [| first rest] eqn:Hs; [congruence |].
  destruct (collides (moved_head first s) s).
  - left. unfold rerender, isPlaying_effect. fields. rewrite Hp. cbn [Bool.eqb].
    fields. repeat split.
  - right. fields.
    assert (Hsame : forall tail,
      steps_to_wall (set_snake (moved_head first s :: tail) s)
      = (if x (directionRef s) =? 1 then CELLS - 1 - x first
         else if x (directionRef s) =? -1 then x first
         else if y (directionRef s) =? 1 then CELLS - 1 - y first
         else y first) - 1).
    { intros tail. unfold steps_to_wall, moved_head. fields. cbn [x y].
      destruct Hdir as [-> | [-> | [-> | ->]]]; cbn [x y Z.eqb Pos.eqb]; lia. }
    destruct (same_cell (moved_head first s) (foodRef s));
      unfold rerender; fields; rewrite Hp; cbn [Bool.eqb]; fields; rewrite ?Hs.
    + split; [exact Hp |]. apply (Hsame (first :: rest)).
    + split; [exact Hp |].
      change (removelast (moved_head first s :: first :: rest))
        with (moved_head first s :: removelast (first :: rest)).
      apply Hsame.
Qed.

Lemma ticks_reach_wall (draws : list (Q * Q)) :
  forall (s : State) (ctx : Ctx),
    Inv s ->
    Forall (fun d => unit_interval (fst d) /\ unit_interval (snd d)) draws ->
    isPlaying s = true ->
    steps_to_wall s < Z.of_nat (List.length draws) ->
    phase (fst (run (ticks draws) (s, ctx))) = Over.
Proof.
  induction draws as [| d draws IH]; intros s ctx HI Hv Hp Hsteps.
  - pose proof (steps_to_wall_range s HI). simpl in Hsteps. lia.
  - inversion Hv as [| ? ? [Hdx Hdy] Hv']; subst.
    pose proof HI as [_ _ _ _ _ _ Hint _]. rewrite Hp in Hint.
    cbn [ticks map run fold_left step fst]. rewrite Hint. cbn zeta.
    rewrite updateGame_draws_then_moves. cbn [fst snd].
    fold (ticks draws).
    match goal with
    | |- phase (fst (fold_left _ _ ?w0)) = _ =>
        change (phase (fst (run (ticks draws) w0)) = Over)
    end.
    destruct (tick_progress (fst d) (snd d) s HI Hp) as [[H1 [H2 H3]] | [H1 H2]].
    + rewrite ticks_when_stopped by exact H3. cbn [fst].
      unfold phase. rewrite H1, H2. reflexivity.
    + apply IH; try assumption.
      * now apply Inv_moveSnake.
      * rewrite H2. cbn [List.length] in Hsteps. lia.
Qed.

(** X7.  A running game left without key presses is over after at most 20
    callbacks of the interval: the head advances in a straight line and the
    grid is 20 cells wide.  (A game that is not running stays as it is.) *)
Theorem X7_untouched_game_ends (w : World) (draws : list (Q * Q)) :
  reachable w ->
  Forall (fun d => unit_interval (fst d) /\ unit_interval (snd d)) draws ->
  (20 <= List.length draws)%nat ->
  phase (fst (run (ticks draws) w)) <> Running /\
  (phase (fst w) = Running -> phase (fst (run (ticks draws) w)) = Over).
Proof.
  intros Hr Hv Hlen. pose proof (reachable_Inv w Hr) as HI.
  assert (Hrun : isPlaying (fst w) = true ->
                 phase (fst (run (ticks draws) w)) = Over).
  { intros Hp. destruct w as [s ctx]. apply ticks_reach_wall; try assumption.
    pose proof (steps_to_wall_range s HI) as Hrange.
    change CELLS with 20 in Hrange. cbn [fst] in *. lia. }
  split.
  - destruct (isPlaying (fst w)) eqn:Hp.
    + rewrite Hrun by reflexivity. discriminate.
    + destruct HI as [_ _ _ _ _ _ Hint _]. rewrite Hp in Hint.
      rewrite ticks_when_stopped by exact Hint.
      rewrite phase_Running. congruence.
  - intros Hphase. apply Hrun. now apply phase_Running.
Qed.

(** Twenty callbacks after a start: the snake, heading right from (10,10),
    has hit the right wall. *)
Lemma X7_witness :
  phase (fst (run (ticks (repeat (1 # 3, 2 # 3) 20)) just_started)) = Over.
Proof.
  apply (X7_untouched_game_ends just_started (repeat (1 # 3, 2 # 3) 20)).
  - apply (reach_step (StartClick (3 # 4) (1 # 4)) mounted reach_mounted).
    unfold valid_event, unit_interval, Qle, Qlt. simpl. lia.
  - apply Forall_forall. intros d Hd. apply repeat_spec in Hd. subst d.
    unfold unit_interval, Qle, Qlt. simpl. lia.
  - simpl. lia.
  - reflexivity.
Defined.

End Snake.

Module ForwarderFacts.

Import Forwarder.

(** * Properties of the port-forward handler *)

(** ** The blob *)

Lemma initConfig_array (blob : Blob) :
  initConfig blob = Some (JArray (readConfig blob)).
Proof.
  destruct blob as [[config |] |]; try reflexivity.
  destruct config; reflexivity.
Qed.

Lemma readConfig_initConfig (blob : Blob) :
  readConfig (initConfig blob) = readConfig blob.
Proof. rewrite initConfig_array. reflexivity. Qed.

(** ** Ids *)

Lemma Math_max_bounds (others : list Z) :
  forall first : Z,
    first <= Math_max first others /\
    Forall (fun v => v <= Math_max first others) others.
Proof.
  unfold Math_max.
  induction others as [| o others IH]; intros first; cbn [fold_left].
  - split; [lia | constructor].
  - destruct (IH (Z.max first o)) as [Hfirst Hrest]. split; [lia |].
    constructor; [lia | exact Hrest].
Qed.

Lemma next_id_above (config : list PortMapping) :
  Forall (fun m => id m < next_id config) config.
Proof.
  unfold next_id. destruct config as [| m config]; [constructor |].
  cbn [map]. destruct (Math_max_bounds (map id config) (id m)) as [Hm Hrest].
  constructor; [lia |].
  rewrite Forall_forall in *. intros m' Hin.
  assert (id m' <= Math_max (id m) (map id config))
    by (apply Hrest; now apply in_map).
  lia.
Qed.

Lemma next_id_not_used (config : list PortMapping) :
  ~ In (next_id config) (ids config).
Proof.
  unfold ids. intros Hin. apply in_map_iff in Hin. destruct Hin as [m [Hid Hm]].
  pose proof (next_id_above config) as Habove. rewrite Forall_forall in Habove.
  specialize (Habove m Hm). lia.
Qed.

Lemma ids_app (a b : list PortMapping) : ids (a ++ b) = ids a ++ ids b.
Proof. apply map_app. Qed.

Lemma NoDup_snoc (A : Type) (l : list A) (a : A) :
  NoDup l -> ~ In a l -> NoDup (l ++ [a]).
Proof.
  intros Hnd Hnot. apply NoDup_rev in Hnd.
  rewrite <- (rev_involutive (l ++ [a])). apply NoDup_rev.
  rewrite rev_app_distr. cbn [rev app]. constructor; [| exact Hnd].
  rewrite <- in_rev. exact Hnot.
Qed.

Lemma ids_filter_NoDup (p : PortMapping -> bool) (config : list PortMapping) :
  NoDup (ids config) -> NoDup (ids (filter p config)).
Proof.
  unfold ids. induction config as [| m config IH]; cbn [map filter]; [trivial |].
  intros Hnd. inversion Hnd as [| ? ? Hnot Hrest]; subst.
  destruct (p m); [| now apply IH].
  cbn [map]. constructor; [| now apply IH].
  intros Hin. apply Hnot. apply in_map_iff in Hin. destruct Hin as [m' [Hid Hm']].
  apply filter_In in Hm'. rewrite <- Hid. apply in_map. tauto.
Qed.

(** ** Finding and replacing *)

(** [findIndex] returns the position of the first mapping that passes. *)
Lemma findIndex_Some (p : PortMapping -> bool) (config : list PortMapping) :
  forall index : nat,
    findIndex p config = Some index ->
    exists before m after,
      config = before ++ m :: after /\ List.length before = index /\
      p m = true /\ Forall (fun m' => p m' = false) before.
Proof.
  induction config as [| m config IH]; intros index; cbn [findIndex];
    [discriminate |].
  destruct (p m) eqn:Hp.
  - intros E. injection E as <-. exists [], m, config. repeat split; auto.
  - destruct (findIndex p config) as [index' |]; [| discriminate].
    intros E. injection E as <-.
    destruct (IH index' eq_refl) as [before [m0 [after [Hc [Hl [Hp0 Hb]]]]]].
    exists (m :: before), m0, after. subst config. cbn [List.length app].
    repeat split; auto.
Qed.

Lemma findIndex_None (p : PortMapping -> bool) (config : list PortMapping) :
  findIndex p config = None <-> Forall (fun m => p m = false) config.
Proof.
  induction config as [| m config IH]; cbn [findIndex].
  - split; [constructor | reflexivity].
  - destruct (p m) eqn:Hp.
    + split; [discriminate |]. intros H. inversion H; congruence.
    + destruct (findIndex p config).
      * split; [discriminate |]. intros H. inversion H as [| ? ? _ Hrest]; subst.
        apply IH in Hrest. discriminate.
      * split; [| reflexivity]. intros _. constructor; [exact Hp | now apply IH].
Qed.

Lemma assign_spread_at (before after : list PortMapping) (m : PortMapping)
    (updatedMapping : Body) :
  assign_spread (List.length before) updatedMapping (before ++ m :: after)
  = before ++ spread m updatedMapping :: after.
Proof.
  induction before as [| b before IH]; cbn [List.length app assign_spread];
    [reflexivity |].
  rewrite IH. reflexivity.
Qed.

Lemma id_is_Some (v : Z) (m : PortMapping) : id_is (Some v) m = true <-> id m = v.
Proof. apply Z.eqb_eq. Qed.

Section Handler.

Variable parseInt : string -> option Z.

(** ** The routes *)

Lemma server_GET_mappings (blob : Blob) :
  server parseInt GET_mappings blob
  = (mkResponse 200 (JsonConfig (readConfig blob)), Some (JArray (readConfig blob))).
Proof.
  unfold server, GET_mappings. cbn [pathname method]. cbn [String.eqb Ascii.eqb Bool.eqb andb].
  cbn zeta. rewrite readConfig_initConfig, initConfig_array. reflexivity.
Qed.

Lemma server_POST_mapping (body : Body) (blob : Blob) :
  server parseInt (POST_mapping body) blob
  = (mkResponse 201 NoContent,
     Some (JArray (readConfig blob ++ [with_id (next_id (readConfig blob)) body]))).
Proof.
  unfold server, POST_mapping. cbn [pathname method json].
  cbn [String.eqb Ascii.eqb Bool.eqb andb]. cbn zeta.
  rewrite readConfig_initConfig. reflexivity.
Qed.

Lemma server_PUT (request : Request) (blob : Blob) :
  method request = "PUT"%string ->
  String.prefix "/mappings/" (pathname request) = true ->
  server parseInt request blob
  = match findIndex (id_is (parseInt (pop (split_slash (pathname request)))))
            (readConfig blob) with
    | Some index =>
        (mkResponse 200 NoContent,
         Some (JArray (assign_spread index (json request) (readConfig blob))))
    | None => (mkResponse 404 NoContent, Some (JArray (readConfig blob)))
    end.
Proof.
  intros Hm Hp. unfold server. rewrite Hm, Hp.
  cbn [String.eqb Ascii.eqb Bool.eqb andb]. rewrite !andb_false_r. cbn zeta.
  rewrite readConfig_initConfig, initConfig_array. reflexivity.
Qed.

Lemma server_DELETE (request : Request) (blob : Blob) :
  method request = "DELETE"%string ->
  String.prefix "/mappings/" (pathname request) = true ->
  server parseInt request blob
  = (mkResponse 200 NoContent,
     Some (JArray
             (filter
                (fun m => negb (id_is (parseInt (pop (split_slash (pathname request)))) m))
                (readConfig blob)))).
Proof.
  intros Hm Hp. unfold server. rewrite Hm, Hp.
  cbn [String.eqb Ascii.eqb Bool.eqb andb]. rewrite !andb_false_r. cbn zeta.
  rewrite readConfig_initConfig. reflexivity.
Qed.

(** What a request leaves in the blob is always an array; the config read
    back from it is given route by route above. *)
Lemma server_leaves_array (request : Request) (blob : Blob) :
  snd (server parseInt request blob)
  = Some (JArray (readConfig (snd (server parseInt request blob)))).
Proof.
  unfold server. cbn zeta.
  repeat match goal with
         | |- context [if ?b then _ else _] => destruct b
         | |- context [match findIndex ?p ?c with _ => _ end] =>
             destruct (findIndex p c)
         end; cbn [snd writeConfig readConfig];
    try reflexivity; rewrite initConfig_array; reflexivity.
Qed.

End Handler.

(** ** Reading and adding *)

(** X8.  [GET /mappings] answers 200 with the stored array and leaves it as
    it is; when the blob is missing or holds something that is not an array
    the answer is the empty list and the blob is reset to the empty array.
    Whatever the request, the blob holds an array afterwards. *)
Theorem X8_get_reads_config (parseInt : string -> option Z) (blob : Blob) :
  fst (server parseInt GET_mappings blob)
  = mkResponse 200 (JsonConfig (readConfig blob)) /\
  readConfig (snd (server parseInt GET_mappings blob)) = readConfig blob /\
  (blob = None \/ blob = Some JOther ->
   server parseInt GET_mappings blob
   = (mkResponse 200 (JsonConfig []), Some (JArray []))) /\
  (forall request : Request,
      exists config : list PortMapping,
        snd (server parseInt request blob) = Some (JArray config)).
Proof.
  rewrite server_GET_mappings. cbn [fst snd readConfig].
  split; [reflexivity |]. split; [reflexivity |]. split.
  - intros [-> | ->]; reflexivity.
  - intros request. eexists. apply server_leaves_array.
Qed.

Lemma X8_witness :
  server decimal GET_mappings (Some JOther)
  = (mkResponse 200 (JsonConfig []), Some (JArray [])) /\
  server decimal GET_mappings None
  = (mkResponse 200 (JsonConfig []), Some (JArray [])).
Proof.
  split.
  - apply (X8_get_reads_config decimal (Some JOther)). right. reflexivity.
  - apply (X8_get_reads_config decimal None). left. reflexivity.
Defined.



(** ** Deleting *)

(** X10.  [DELETE /mappings/<id>] always answers 200.  It removes every
    stored mapping with that id and keeps the others in their order; when no
    mapping has the id, or the last piece of the path is not a number, the
    list is left as it is.  Deleting twice is deleting once. *)
Theorem X10_delete_removes_id (parseInt : string -> option Z) (request : Request)
    (blob : Blob) :
  method request = "DELETE"%string ->
  String.prefix "/mappings/" (pathname request) = true ->
  fst (server parseInt request blob) = mkResponse 200 NoContent /\
  readConfig (snd (server parseInt request blob))
  = filter (fun m => negb (id_is (parseInt (pop (split_slash (pathname request)))) m))
      (readConfig blob) /\
  (forall v : Z,
      parseInt (pop (split_slash (pathname request))) = Some v ->
      ~ In v (ids (readConfig (snd (server parseInt request blob)))) /\
      (forall m : PortMapping,
          In m (readConfig (snd (server parseInt request blob)))
          <-> In m (readConfig blob) /\ id m <> v) /\
      (~ In v (ids (readConfig blob)) ->
       readConfig (snd (server parseInt request blob)) = readConfig blob)) /\
  (parseInt (pop (split_slash (pathname request))) = None ->
   readConfig (snd (server parseInt request blob)) = readConfig blob) /\
  snd (server parseInt request (snd (server parseInt request blob)))
  = snd (server parseInt request blob).
Proof.
  intros Hm Hp. rewrite !(server_DELETE parseInt request _ Hm Hp).
  cbn [fst snd readConfig].
  split; [reflexivity |]. split; [reflexivity |].
  split; [| split].
  - intros v ->. cbn [id_is]. split; [| split].
    + unfold ids. intros Hin. apply in_map_iff in Hin.
      destruct Hin as [m [Hid Hin]]. apply filter_In in Hin.
      destruct Hin as [_ Hneq]. rewrite Hid, Z.eqb_refl in Hneq. discriminate.
    + intros m. rewrite filter_In, negb_true_iff, Z.eqb_neq. reflexivity.
    + intros Hnot. apply forallb_filter_id. apply forallb_forall.
      intros m Hin. rewrite negb_true_iff, Z.eqb_neq. intros E.
      apply Hnot. unfold ids. rewrite <- E. now apply in_map.
  - intros ->. cbn [id_is negb]. apply forallb_filter_id.
    apply forallb_forall. reflexivity.
  - f_equal. f_equal.
    set (p := fun m => negb (id_is (parseInt (pop (split_slash (pathname request)))) m)).
    induction (readConfig blob) as [| m config IH]; cbn [filter]; [reflexivity |].
    destruct (p m) eqn:Hpm; cbn [filter]; [rewrite Hpm; f_equal |]; exact IH.
Qed.

Lemma X10_witness :
  readConfig
    (snd (server decimal (mkRequest "DELETE" "/mappings/2" (mkBody None None None None))
            sample_blob))
  = [mkPortMapping 1 (Some 3000) (Some "app"%string) (Some "ide.example"%string);
     mkPortMapping 4 (Some 5432) (Some "db"%string) (Some "ide.example"%string)].
Proof.
  destruct (X10_delete_removes_id decimal
              (mkRequest "DELETE" "/mappings/2" (mkBody None None None None))
              sample_blob) as [_ [H _]].
  - reflexivity.
  - reflexivity.
  - rewrite H. reflexivity.
Defined.

(** ** Updating *)





(** ** Sequences of requests *)

Lemma serve_cons (parseInt : string -> option Z) (request : Request)
    (rest : list Request) (blob : Blob) :
  snd (serve parseInt (request :: rest) blob)
  = snd (serve parseInt rest (snd (server parseInt request blob))).
Proof.
  cbn [serve]. destruct (server parseInt request blob) as [response blob1].
  cbn [snd]. destruct (serve parseInt rest blob1). reflexivity.
Qed.



Lemma server_keeps_ids_distinct (parseInt : string -> option Z) (request : Request)
    (blob : Blob) :
  keeps_id parseInt request ->
  NoDup (ids (readConfig blob)) ->
  NoDup (ids (readConfig (snd (server parseInt request blob)))).
Proof.
  intros Hkeep Hnd. unfold keeps_id in Hkeep. unfold server. cbn zeta.
  rewrite readConfig_initConfig.
  destruct (String.eqb (pathname request) "/mappings" && String.eqb (method request) "GET").
  { cbn [snd]. rewrite readConfig_initConfig. exact Hnd. }
  destruct (String.eqb (pathname request) "/mappings" && String.eqb (method request) "POST").
  { cbn [snd writeConfig readConfig]. rewrite ids_app. cbn [ids map with_id id].
    apply NoDup_snoc; [exact Hnd | apply next_id_not_used]. }
  destruct (String.prefix "/mappings/" (pathname request)
            && String.eqb (method request) "PUT").
  { specialize (Hkeep eq_refl).
    destruct (findIndex (id_is (parseInt (pop (split_slash (pathname request)))))
                (readConfig blob)) as [index |] eqn:Hfind;
      [| cbn [snd]; rewrite readConfig_initConfig; exact Hnd].
    destruct (findIndex_Some _ _ index Hfind)
      as [before [m [after [Hc [Hl [Hpm _]]]]]].
    cbn [snd writeConfig readConfig]. rewrite Hc in *. rewrite <- Hl, assign_spread_at.
    rewrite ids_app in *. cbn [ids map spread id] in *.
    destruct (parseInt (pop (split_slash (pathname request)))) as [v |];
      [| discriminate Hpm].
    apply id_is_Some in Hpm.
    destruct Hkeep as [-> | ->]; [exact Hnd | rewrite <- Hpm; exact Hnd]. }
  destruct (String.prefix "/mappings/" (pathname request)
            && String.eqb (method request) "DELETE").
  { cbn [snd writeConfig readConfig]. now apply ids_filter_NoDup. }
  cbn [snd]. rewrite readConfig_initConfig. exact Hnd.
Qed.



(** ** The id in the path *)

Lemma split_slash_not_empty (s : string) : split_slash s <> [].
Proof.
  destruct s as [| c rest]; cbn [split_slash]; [discriminate |].
  destruct (Ascii.eqb c "/"); [discriminate |].
  destruct (split_slash rest); discriminate.
Qed.

Lemma split_slash_no_slash (s : string) :
  has_slash s = false -> split_slash s = [s].
Proof.
  induction s as [| c rest IH]; cbn [has_slash split_slash]; [reflexivity |].
  intros H. apply orb_false_iff in H. destruct H as [Hc Hrest].
  rewrite Hc, (IH Hrest). reflexivity.
Qed.

Lemma split_slash_append (p s : string) :
  split_slash (p ++ String "/" s) = split_slash p ++ split_slash s.
Proof.
  induction p as [| c p IH]; cbn [String.append split_slash].
  - reflexivity.
  - rewrite IH. destruct (Ascii.eqb c "/"); [reflexivity |].
    pose proof (split_slash_not_empty p) as Hne.
    destruct (split_slash p) as [| piece pieces]; [congruence | reflexivity].
Qed.

Lemma pop_app (front back : list string) :
  back <> [] -> pop (front ++ back) = pop back.
Proof.
  unfold pop. intros Hne. induction front as [| piece front IH]; [reflexivity |].
  cbn [app]. destruct (front ++ back) eqn:E.
  - apply app_eq_nil in E. destruct E. congruence.
  - rewrite <- IH. reflexivity.
Qed.

(** X15.  The id of a [PUT] or [DELETE] is read from what follows the last
    slash of the path: for a path that ends with a slash and a piece without
    slashes, [parseInt] is applied to that piece, whatever comes before. *)
Theorem X15_id_is_last_piece (before piece : string) :
  has_slash piece = false ->
  pop (split_slash (before ++ String "/" piece)) = piece.
Proof.
  intros Hpiece. rewrite split_slash_append.
  rewrite pop_app by apply split_slash_not_empty.
  rewrite (split_slash_no_slash piece Hpiece). reflexivity.
Qed.

Lemma X15_witness :
  pop (split_slash "/mappings/7/8") = "8"%string /\
  pop (split_slash "/mappings/") = ""%string.
Proof.
  split.
  - apply (X15_id_is_last_piece "/mappings/7" "8"). reflexivity.
  - apply (X15_id_is_last_piece "/mappings" ""). reflexivity.
Defined.

End ForwarderFacts.
